(** * liz-backend: access codes, device-bound sessions and the chat proxy

    A shallow embedding of [server.js]: the cipher used to look access codes
    up, the random code generator, the two MongoDB collections with their
    unique indexes, the strings as the store holds them and the expiry of
    sessions, the request handlers and the seeding routine, followed by the
    properties of the specification. *)

From Stdlib Require Import Strings.String Strings.Ascii Strings.Byte.
From Stdlib Require Import List NArith ZArith Bool Arith Lia.
Import ListNotations.

Set Implicit Arguments.
Set Warnings "-register-all".

(** ** JavaScript strings

    A JavaScript string is a sequence of UTF-16 code units; [===] and [!==]
    on strings compare those sequences. *)

Module JS.

Definition jsstring := list N.

(** A literal of the source, whose characters are all ASCII. *)
Definition lit (s : string) : jsstring :=
  map N_of_ascii (list_ascii_of_string s).

Definition eqb (a b : jsstring) : bool :=
  if list_eq_dec N.eq_dec a b then true else false.

(** [!x] is false exactly for a string that is present and not empty:
    [undefined] and [''] are the falsy values of an optional string field. *)
Definition truthy (x : option jsstring) : bool :=
  match x with
  | None => false
  | Some [] => false
  | Some (_ :: _) => true
  end.

(** [s.charAt(i)]: a one-unit string, or [''] out of range. *)
Definition charAt (s : jsstring) (i : nat) : jsstring :=
  match nth_error s i with
  | Some c => [c]
  | None => []
  end.

(** The string held by a field that passed the [!x] test. *)
Definition str (x : option jsstring) : jsstring :=
  match x with
  | Some s => s
  | None => []
  end.

Definition isAscii (s : jsstring) : Prop := Forall (fun u => (u < 128)%N) s.

Definition isHighSurrogate (u : N) : bool := ((0xD800 <=? u) && (u <=? 0xDBFF))%N.
Definition isLowSurrogate (u : N) : bool := ((0xDC00 <=? u) && (u <=? 0xDFFF))%N.

(** Well-formed UTF-16: 16-bit units in which every surrogate is half of a
    high-low pair. *)
Fixpoint wellFormed (s : jsstring) : bool :=
  match s with
  | [] => true
  | u :: rest =>
      if isHighSurrogate u then
        match rest with
        | l :: rest' => isLowSurrogate l && wellFormed rest'
        | [] => false
        end
      else if isLowSurrogate u then false
      else (u <? 0x10000)%N && wellFormed rest
  end.

(** The string the store gives back for a string written to it.  A BSON
    string is UTF-8: the driver writes every surrogate that has no partner
    as U+FFFD and everything else as it is. *)
Fixpoint scrub (s : jsstring) : jsstring :=
  match s with
  | [] => []
  | u :: rest =>
      if isHighSurrogate u then
        match rest with
        | l :: rest' =>
            if isLowSurrogate l then u :: l :: scrub rest'
            else 0xFFFD%N :: scrub rest
        | [] => [0xFFFD%N]
        end
      else if isLowSurrogate u then 0xFFFD%N :: scrub rest
      else u :: scrub rest
  end.

(** Two strings that the store holds as the same string. *)
Definition sameStored (a b : jsstring) : bool := eqb (scrub a) (scrub b).

End JS.

Abbreviation jsstring := JS.jsstring.

(** ** Bytes, UTF-8 and hexadecimal output *)

Module Bytes.

Definition ofN (n : N) : byte :=
  match Byte.of_N (n mod 256) with
  | Some b => b
  | None => x00
  end.

Definition xor (a b : byte) : byte :=
  ofN (N.lxor (Byte.to_N a) (Byte.to_N b)).

Fixpoint xorBlock (a b : list byte) : list byte :=
  match a, b with
  | x :: a', y :: b' => xor x y :: xorBlock a' b'
  | _, _ => []
  end.

(** U+FFFD, written for every surrogate that has no partner. *)
Definition replacement : list byte := [xef; xbf; xbd].

(** The ['utf8'] encoding of a string, as [cipher.update(text, 'utf8', _)]
    reads its input. *)
Fixpoint utf8 (s : jsstring) : list byte :=
  match s with
  | [] => []
  | u :: rest =>
      if (u <? 0x80)%N then ofN u :: utf8 rest
      else if (u <? 0x800)%N then
        ofN (0xC0 + u / 64) :: ofN (0x80 + u mod 64) :: utf8 rest
      else if JS.isHighSurrogate u then
        match rest with
        | l :: rest' =>
            if JS.isLowSurrogate l then
              let cp := (0x10000 + (u - 0xD800) * 1024 + (l - 0xDC00))%N in
              ofN (0xF0 + cp / 262144)
                :: ofN (0x80 + (cp / 4096) mod 64)
                :: ofN (0x80 + (cp / 64) mod 64)
                :: ofN (0x80 + cp mod 64) :: utf8 rest'
            else replacement ++ utf8 rest
        | [] => replacement
        end
      else if JS.isLowSurrogate u then replacement ++ utf8 rest
      else
        ofN (0xE0 + u / 4096) :: ofN (0x80 + (u / 64) mod 64)
          :: ofN (0x80 + u mod 64) :: utf8 rest
  end.

Definition hexDigit (n : N) : N :=
  (if n <? 10 then 48 + n else 87 + n)%N.

(** The ['hex'] output encoding: two lower-case digits per byte. *)
Definition hexByte (b : byte) : jsstring :=
  [hexDigit (Byte.to_N b / 16); hexDigit (Byte.to_N b mod 16)].

Definition hex (bs : list byte) : jsstring := flat_map hexByte bs.

End Bytes.

(** The four shapes of the head of a well-formed string. *)
Inductive Utf8Head : jsstring -> list byte -> jsstring -> Prop :=
| Head1 u rest : (u < 0x80)%N ->
    Utf8Head (u :: rest) [Bytes.ofN u] rest
| Head2 u rest : (0x80 <= u < 0x800)%N ->
    Utf8Head (u :: rest) [Bytes.ofN (0xC0 + u / 64); Bytes.ofN (0x80 + u mod 64)] rest
| Head3 u rest : (0x800 <= u < 0x10000)%N ->
    Utf8Head (u :: rest)
      [Bytes.ofN (0xE0 + u / 4096); Bytes.ofN (0x80 + (u / 64) mod 64);
       Bytes.ofN (0x80 + u mod 64)] rest
| Head4 u l rest : (0xD800 <= u <= 0xDBFF)%N -> (0xDC00 <= l <= 0xDFFF)%N ->
    Utf8Head (u :: l :: rest)
      (let cp := (0x10000 + (u - 0xD800) * 1024 + (l - 0xDC00))%N in
       [Bytes.ofN (0xF0 + cp / 262144); Bytes.ofN (0x80 + (cp / 4096) mod 64);
        Bytes.ofN (0x80 + (cp / 64) mod 64); Bytes.ofN (0x80 + cp mod 64)]) rest.


(** ** JSON values

    Request and response bodies.  A number is kept as the decimal literal
    [mantissa * 10 ^ exponent], so that [0.8] is [JNum 8 (-1)]. *)

Inductive Json : Type :=
| JNull
| JBool (b : bool)
| JNum (mantissa exponent : Z)
| JStr (s : jsstring)
| JArr (items : list Json)
| JObj (fields : list (jsstring * Json)).

Record Response : Type := mkResponse { status : nat; body : Json }.

(** [res.json(v)] answers with status 200, [res.status(n).json(v)] with [n]. *)
Definition json (v : Json) : Response := mkResponse 200 v.
Definition errorBody (msg : string) : Json := JObj [(JS.lit "error", JStr (JS.lit msg))].

(** ** Documents of the two collections

    A collection is the list of its documents, in insertion order; a document
    holds its strings as the driver reads them back. *)

Record AccessCode : Type := mkAccessCode {
  code : jsstring;
  encryptedCode : jsstring;
  codeCreatedAt : Z
}.

Record Session : Type := mkSession {
  sessionCode : jsstring;
  deviceId : jsstring;
  createdAt : Z
}.

(** ** The chat completion endpoint, as [axios.post] reports it *)

Record Message : Type := mkMessage { role : jsstring; content : jsstring }.

(** The body and the headers of the upstream request; [temperature] is the
    decimal literal [(mantissa, exponent)], [0.8] being [(8, -1)]. *)
Record CompletionRequest : Type := mkCompletionRequest {
  url : jsstring;
  model : jsstring;
  messages : list Message;
  temperature : Z * Z;
  max_tokens : Z;
  authorization : jsstring;
  contentType : jsstring
}.

(** The promise resolves with the response, or rejects with an error that
    carries the upstream response ([error.response.data]) or, when no response
    arrived, only a message ([error.message]). *)
Inductive AxiosResult : Type :=
| Resolved (data : Json)
| RejectedWithResponse (data : Json)
| RejectedNoResponse (message : jsstring).

Definition Upstream : Type := CompletionRequest -> AxiosResult.

(** ** Failures of the store

    Every call to the store may throw.  A write that throws may or may not
    have been applied. *)

Inductive StoreOp : Type :=
| CodeFindOne
| SessionFindOne
| SessionFindOneAndUpdate
| SessionDeleteOne.

Inductive Fault : Type := NoFault | FailsBefore | FailsAfter.

Definition Faults : Type := StoreOp -> Fault.

(** The store answers every call. *)
Definition healthy : Faults := fun _ => NoFault.

Inductive Exn : Type :=
| StoreError (op : StoreOp)
| ValidationError
| DuplicateKey (k : jsstring)
| AxiosError (r : AxiosResult)
| TypeError.

(** ** The process state *)

Inductive LogArg : Type :=
| LText (s : jsstring)
| LJson (j : Json)
| LExn (e : Exn)
| LStrings (l : list jsstring).

Record World : Type := mkWorld {
  codes : list AccessCode;
  sessions : list Session;
  console : list (list LogArg);
  sent : list CompletionRequest
}.

Definition setCodes (l : list AccessCode) (w : World) : World :=
  mkWorld l (sessions w) (console w) (sent w).
Definition setSessions (l : list Session) (w : World) : World :=
  mkWorld (codes w) l (console w) (sent w).

(** ** Asynchronous code with exceptions: state and error passing *)

Inductive Outcome (A : Type) : Type :=
| Returned (a : A)
| Thrown (e : Exn).
Arguments Thrown {A} e.

Definition Task (A : Type) : Type := World -> Outcome A * World.

Definition ret {A} (a : A) : Task A := fun w => (Returned a, w).
Definition throw {A} (e : Exn) : Task A := fun w => (Thrown e, w).
Definition bind {A B} (m : Task A) (k : A -> Task B) : Task B :=
  fun w => match m w with
           | (Returned a, w') => k a w'
           | (Thrown e, w') => (Thrown e, w')
           end.
Definition tryCatch {A} (m : Task A) (handler : Exn -> Task A) : Task A :=
  fun w => match m w with
           | (Returned a, w') => (Returned a, w')
           | (Thrown e, w') => handler e w'
           end.
Definition modify (f : World -> World) : Task unit := fun w => (Returned tt, f w).
Definition consoleLog (line : list LogArg) : Task unit :=
  modify (fun w => mkWorld (codes w) (sessions w) (console w ++ [line]) (sent w)).

Notation "x <- m ;; k" := (bind m (fun x => k))
  (at level 61, m at next level, right associativity).
Notation "m ;;; k" := (bind m (fun _ => k))
  (at level 61, right associativity).


(** ** A stand-in configuration

    A one-to-one map on 16-byte blocks in the place of AES, a key, an IV and
    a source of random bytes: the instance at which the assumptions of the
    theorems below are shown to hold together. *)

Module Sample.

Definition aes (k b : list byte) : list byte := Bytes.xorBlock b (firstn 16 k).
Definition key : list byte := repeat x5a 32.
Definition iv : list byte := repeat x01 16.

(** The random byte [n] is [n / 12]: code [k] is twelve times the character
    [k] of the alphabet. *)
Definition entropy (n : nat) : byte := Bytes.ofN (N.of_nat (n / 12)).

(** A store whose lookup of access codes is down. *)
Definition lookupDown : Faults :=
  fun op => match op with
            | CodeFindOne => FailsBefore
            | _ => NoFault
            end.

End Sample.

(** ** The server *)

Section Server.

(** AES-256 on one 16-byte block ([aes256 k b] encrypts [b] under the key
    [k]), and the configuration read from the environment at start-up:
    [ENCRYPTION_KEY], [ENCRYPTION_IV] and [OPENAI_API_KEY]. *)
Variable aes256 : list byte -> list byte -> list byte.
Variable key : list byte.
Variable iv : list byte.
Variable OPENAI_API_KEY : jsstring.

(** *** Encryption: [aes-256-cbc] *)

Definition blockSize : nat := 16.

(** A cipher object: the chaining value and the input not yet encrypted. *)
Record Cipher : Type := mkCipher { chain : list byte; pending : list byte }.

Definition createCipheriv : Cipher := mkCipher iv [].

(** [n] blocks of [data] in CBC mode; the output and the last chaining value. *)
Fixpoint encryptBlocks (n : nat) (prev data : list byte) : list byte * list byte :=
  match n with
  | O => ([], prev)
  | S n' =>
      let c := aes256 key (Bytes.xorBlock (firstn blockSize data) prev) in
      let (out, last) := encryptBlocks n' c (skipn blockSize data) in
      (c ++ out, last)
  end.

(** [cipher.update(data)]: every complete block is encrypted, the rest kept. *)
Definition update (c : Cipher) (data : list byte) : Cipher * list byte :=
  let buf := pending c ++ data in
  let n := length buf / blockSize in
  let (out, last) := encryptBlocks n (chain c) buf in
  (mkCipher last (skipn (blockSize * n) buf), out).

(** PKCS#7: [k] bytes of value [k], with [1 <= k <= 16]. *)
Definition padLength (tail : list byte) : nat :=
  blockSize - length tail mod blockSize.

Definition pkcs7 (tail : list byte) : list byte :=
  let k := padLength tail in
  tail ++ repeat (Bytes.ofN (N.of_nat k)) k.

(** [cipher.final()]: the padded last block. *)
Definition final (c : Cipher) : list byte :=
  fst (encryptBlocks 1 (chain c) (pkcs7 (pending c))).

Definition encrypt (text : jsstring) : jsstring :=
  let cipher := createCipheriv in
  let (cipher', out) := update cipher (Bytes.utf8 text) in
  let encrypted := Bytes.hex out in
  encrypted ++ Bytes.hex (final cipher').

(** *** The random code generator *)

(** The bytes the process draws from [crypto.randomBytes], the
    cryptographically secure generator of Node, in order. *)
Definition Entropy : Type := nat -> byte.

(** [crypto.randomBytes(n)]: the next [n] bytes of the generator. *)
Definition randomBytes (rnd : Entropy) (pos n : nat) : list byte :=
  map rnd (seq pos n).

Definition characters : jsstring :=
  JS.lit "ABCDEFGHIJKLMNOPQRSTUVWXYZabcdefghijklmnopqrstuvwxyz0123456789!@#$%^&*()".

Definition codeLength : nat := 12.

(** [bytes[i] % characters.length]; a missing byte is [undefined], the
    remainder is then [NaN] and [charAt(NaN)] reads position 0. *)
Definition charIndex (bytes : list byte) (i : nat) : nat :=
  match nth_error bytes i with
  | Some b => N.to_nat (Byte.to_N b) mod length characters
  | None => 0
  end.

Definition generateRandomCode_loop (bytes : list byte) : jsstring :=
  fold_left (fun acc i => acc ++ JS.charAt characters (charIndex bytes i))
            (seq 0 codeLength) [].

(** The code, and the position of the next unused random byte. *)
Definition generateRandomCode (rnd : Entropy) (pos : nat) : jsstring * nat :=
  let bytes := randomBytes rnd pos codeLength in
  (generateRandomCode_loop bytes, pos + codeLength).

(** *** The [Code] collection *)

Definition storeCall {A} (f : Faults) (op : StoreOp) (read : World -> A)
    (write : World -> World) : Task A :=
  fun w => match f op with
           | NoFault => (Returned (read w), write w)
           | FailsBefore => (Thrown (StoreError op), w)
           | FailsAfter => (Thrown (StoreError op), write w)
           end.

(** [Code.findOne({ encryptedCode })]; a ciphertext is made of hexadecimal
    digits, which the store holds as they are. *)
Definition Code_findOne (f : Faults) (enc : jsstring) : Task (option AccessCode) :=
  storeCall f CodeFindOne
    (fun w => find (fun c => JS.eqb (encryptedCode c) enc) (codes w))
    (fun w => w).

(** [required: true] on a string path refuses the empty string. *)
Definition validCodeDoc (d : jsstring * jsstring) : bool :=
  JS.truthy (Some (fst d)) && JS.truthy (Some (snd d)).

(** An ordered insert under the unique index on [code]: the documents are
    written one by one and the first duplicate key stops the insert; the
    documents written before it stay. *)
Fixpoint insertOrdered (now : Z) (docs : list (jsstring * jsstring))
    (coll : list AccessCode) : list AccessCode * option Exn :=
  match docs with
  | [] => (coll, None)
  | (c, e) :: docs' =>
      if existsb (fun a => JS.eqb (code a) c) coll
      then (coll, Some (DuplicateKey c))
      else insertOrdered now docs' (coll ++ [mkAccessCode c e now])
  end.

(** [Code.insertMany(docs)]: every document is validated before any is
    written; [createdAt] takes its default, [Date.now]. *)
Definition Code_insertMany (now : Z) (docs : list (jsstring * jsstring)) : Task unit :=
  fun w =>
    if forallb validCodeDoc docs then
      match insertOrdered now docs (codes w) with
      | (coll, None) => (Returned tt, setCodes coll w)
      | (coll, Some e) => (Thrown e, setCodes coll w)
      end
    else (Thrown ValidationError, w).

(** *** The [Session] collection

    The store keeps strings as UTF-8 (BSON): what is written, and what a
    filter is compared with, is [JS.scrub s] for the string [s] of the
    request. *)

(** The filter [{ code }]: the store compares the code it holds with the
    code of the filter as it would hold it. *)
Definition hasCode (c : jsstring) (s : Session) : bool :=
  JS.sameStored (sessionCode s) c.

(** [Session.findOne({ code })] *)
Definition Session_findOne (f : Faults) (c : jsstring) : Task (option Session) :=
  storeCall f SessionFindOne (fun w => find (hasCode c) (sessions w)) (fun w => w).

(** A string path set to [new]: the path then holds [new] as the store holds
    it; a path that holds it already is left as it is. *)
Definition setPath (old new : jsstring) : jsstring :=
  if JS.sameStored old new then old else JS.scrub new.

(** The update [{ code, deviceId }] applied to the first session of the code:
    the two paths it names are set, [createdAt] is not among them. *)
Fixpoint updateFirst (c d : jsstring) (l : list Session) : option (list Session) :=
  match l with
  | [] => None
  | s :: l' =>
      if hasCode c s
      then Some (mkSession (setPath (sessionCode s) c) (setPath (deviceId s) d)
                   (createdAt s) :: l')
      else option_map (cons s) (updateFirst c d l')
  end.

(** [upsert: true]: without a session of the code, one is inserted, and
    [createdAt] takes its default, [Date.now]. *)
Definition upsert (now : Z) (c d : jsstring) (l : list Session) : list Session :=
  match updateFirst c d l with
  | Some l' => l'
  | None => l ++ [mkSession (JS.scrub c) (JS.scrub d) now]
  end.

(** [Session.findOneAndUpdate({ code }, { code, deviceId }, { upsert: true, new: true })] *)
Definition Session_findOneAndUpdate (f : Faults) (now : Z) (c d : jsstring)
    : Task (option Session) :=
  storeCall f SessionFindOneAndUpdate
    (fun w => find (hasCode c) (upsert now c d (sessions w)))
    (fun w => setSessions (upsert now c d (sessions w)) w).

Fixpoint deleteFirst (c : jsstring) (l : list Session) : list Session :=
  match l with
  | [] => []
  | s :: l' => if hasCode c s then l' else s :: deleteFirst c l'
  end.

(** [Session.deleteOne({ code })] *)
Definition Session_deleteOne (f : Faults) (c : jsstring) : Task unit :=
  storeCall f SessionDeleteOne (fun _ => tt)
    (fun w => setSessions (deleteFirst c (sessions w)) w).

(** The session at position [n] among those that [p] selects is removed. *)
Fixpoint deleteNth (p : Session -> bool) (n : nat) (l : list Session) : list Session :=
  match l with
  | [] => []
  | s :: l' =>
      if p s then
        match n with
        | O => l'
        | S n' => s :: deleteNth p n' l'
        end
      else s :: deleteNth p n l'
  end.

(** The filter [{ code: { $ne: x } }] matches every session whose code is
    not [x]; [deleteOne] removes one of them, the one the store reaches
    first, which is up to its plan: the one at position [pick] among them,
    counted round. *)
Definition deleteOneNot (x : jsstring) (pick : nat) (l : list Session) : list Session :=
  let matches := fun s => negb (hasCode x s) in
  deleteNth matches (pick mod length (filter matches l)) l.

(** [Session.deleteOne({ code })] when [code] is the object [{ $ne: x }] *)
Definition Session_deleteOneNe (f : Faults) (pick : nat) (x : jsstring) : Task unit :=
  storeCall f SessionDeleteOne (fun _ => tt)
    (fun w => setSessions (deleteOneNot x pick (sessions w)) w).

(** The TTL index on [createdAt] ([expires: '7d'], in milliseconds as
    [Date.now] counts): a session is due for removal seven days after its
    [createdAt], and a pass of the store's TTL monitor removes the sessions
    it reaches that are due. *)
Definition sessionTtl : Z := 7 * 24 * 60 * 60 * 1000.

Definition expired (clock : Z) (s : Session) : bool :=
  (createdAt s + sessionTtl <=? clock)%Z.

Definition expire (clock : Z) (reached : Session -> bool) (w : World) : World :=
  setSessions (filter (fun s => negb (expired clock s && reached s)) (sessions w)) w.

(** *** Request bodies

    The fields the handlers destructure from [req.body]; [None] is a field
    that is missing.  The specification types [code] and [deviceId] as
    strings and [messages] as a sequence of messages, and so do these
    records.  A JSON body can hold any value in a field, and [req.body] can
    be [undefined]: see [logoutNe] and [destructureUndefined] below. *)

Record VerifyBody : Type := mkVerifyBody {
  reqCode : option jsstring;
  reqDeviceId : option jsstring
}.

Record LogoutBody : Type := mkLogoutBody { logoutCode : option jsstring }.

Record ChatBody : Type := mkChatBody { reqMessages : option (list Message) }.

(** *** [GET /ping] *)

Definition ping : Task Response :=
  ret (json (JObj [(JS.lit "status", JStr (JS.lit "alive"))])).

(** *** [POST /api/verify-code] *)

Definition deviceConflict (existingSession : option Session) (d : jsstring) : bool :=
  match existingSession with
  | Some s => negb (JS.eqb (deviceId s) d)
  | None => false
  end.

Definition verifyCode (f : Faults) (now : Z) (req : VerifyBody) : Task Response :=
  if negb (JS.truthy (reqCode req)) || negb (JS.truthy (reqDeviceId req))
  then ret (mkResponse 400 (errorBody "Code and deviceId required"))
  else
    let c := JS.str (reqCode req) in
    let d := JS.str (reqDeviceId req) in
    tryCatch
      (storedCode <- Code_findOne f (encrypt c) ;;
       match storedCode with
       | None => ret (json (JObj [(JS.lit "valid", JBool false)]))
       | Some _ =>
           existingSession <- Session_findOne f c ;;
           if deviceConflict existingSession d
           then ret (mkResponse 403
                       (errorBody "This code is already in use on another device."))
           else
             Session_findOneAndUpdate f now c d ;;;
             ret (json (JObj [(JS.lit "valid", JBool true)]))
       end)
      (fun error =>
         consoleLog [LText (JS.lit "Code validation error:"); LExn error] ;;;
         ret (mkResponse 500 (errorBody "Server error"))).

(** *** [POST /api/logout] *)

Definition logout (f : Faults) (req : LogoutBody) : Task Response :=
  if negb (JS.truthy (logoutCode req))
  then ret (mkResponse 400 (errorBody "Code required"))
  else
    let c := JS.str (logoutCode req) in
    tryCatch
      (Session_deleteOne f c ;;;
       ret (json (JObj [(JS.lit "success", JBool true)])))
      (fun error =>
         consoleLog [LText (JS.lit "Logout error:"); LExn error] ;;;
         ret (mkResponse 500 (errorBody "Server error"))).

(** The same handler when [code] is the object [{ $ne: x }]: an object is
    truthy, and the filter [{ code }] reaches the store with its operator. *)
Definition logoutNe (f : Faults) (pick : nat) (x : jsstring) : Task Response :=
  tryCatch
    (Session_deleteOneNe f pick x ;;;
     ret (json (JObj [(JS.lit "success", JBool true)])))
    (fun error =>
       consoleLog [LText (JS.lit "Logout error:"); LExn error] ;;;
       ret (mkResponse 500 (errorBody "Server error"))).

(** *** [POST /api/chat] *)

Definition completionRequest (msgs : list Message) : CompletionRequest :=
  {| url := JS.lit "https://api.openai.com/v1/chat/completions";
     model := JS.lit "gpt-3.5-turbo";
     messages := msgs;
     temperature := (8, -1)%Z;
     max_tokens := 150%Z;
     authorization := JS.lit "Bearer " ++ OPENAI_API_KEY;
     contentType := JS.lit "application/json" |}.

(** [axios.post]: the request leaves the process, and the promise resolves
    with [response.data] or rejects. *)
Definition axiosPost (upstream : Upstream) (r : CompletionRequest) : Task Json :=
  fun w =>
    let w' := mkWorld (codes w) (sessions w) (console w) (sent w ++ [r]) in
    match upstream r with
    | Resolved data => (Returned data, w')
    | rejected => (Thrown (AxiosError rejected), w')
    end.

(** [error.response ? error.response.data : error.message] *)
Definition errorDetail (error : Exn) : LogArg :=
  match error with
  | AxiosError (RejectedWithResponse data) => LJson data
  | AxiosError (RejectedNoResponse message) => LText message
  | e => LExn e
  end.

Definition chat (upstream : Upstream) (req : ChatBody) : Task Response :=
  match reqMessages req with
  | None => ret (mkResponse 400 (errorBody "Messages required"))
  | Some msgs =>
      tryCatch
        (data <- axiosPost upstream (completionRequest msgs) ;;
         ret (json data))
        (fun error =>
           consoleLog [LText (JS.lit "OpenAI Error:"); errorDetail error] ;;;
           ret (mkResponse 500 (errorBody "Failed to generate response")))
  end.

(** *** A request without a body

    [const { ... } = req.body] is the first statement of the three [POST]
    handlers, before their [try]: when [req.body] is [undefined] it throws
    and the handler ends with the exception. *)

Definition destructureUndefined : Task Response := throw TypeError.

(** *** Seeding *)

Definition seedCount : nat := 10.

(** The loop of [seedCodes]: [n] more codes are generated, encrypted and
    pushed on [acc]. *)
Fixpoint seedCodes_loop (n : nat) (rnd : Entropy) (pos : nat)
    (acc : list (jsstring * jsstring)) : list (jsstring * jsstring) :=
  match n with
  | O => acc
  | S n' =>
      let (c, pos') := generateRandomCode rnd pos in
      let encrypted := encrypt c in
      seedCodes_loop n' rnd pos' (acc ++ [(c, encrypted)])
  end.

Definition seedCodes (rnd : Entropy) (now : Z) : Task unit :=
  fun w =>
    let codeCount := length (codes w) in
    if codeCount =? 0 then
      (modify (setCodes []) ;;;
       let docs := seedCodes_loop seedCount rnd 0 [] in
       Code_insertMany now docs ;;;
       consoleLog [LText (JS.lit "10 random codes seeded:"); LStrings (map fst docs)]) w
    else
      consoleLog [LText (JS.lit "Codes already exist in the database, skipping seeding.")] w.

(** *** Notions used to state the properties *)

(** The codes [seedCodes] generates, in order: code [k] is made of the random
    bytes [12 k] to [12 k + 11]. *)
Definition generatedCodes (rnd : Entropy) : list jsstring :=
  map (fun k => fst (generateRandomCode rnd (codeLength * k))) (seq 0 seedCount).

(** The store holds an access code whose ciphertext is that of [c]: the
    lookup of [verifyCode] finds a document. *)
Definition knownCode (w : World) (c : jsstring) : Prop :=
  exists a, In a (codes w) /\ encryptedCode a = encrypt c.

(** The unique index on the [code] of a session: no two sessions hold the
    same code. *)
Definition uniqueSessions (w : World) : Prop :=
  NoDup (map (fun s => JS.scrub (sessionCode s)) (sessions w)).

(** A session that is not one of the request's code, as the store compares
    codes. *)
Definition otherThan (c : option jsstring) (s : Session) : bool :=
  match c with
  | Some c' => negb (hasCode c' s)
  | None => true
  end.

(** [w'] differs from [w] at most in the sessions of the code [c]: the
    access codes are the same, and so are, in the same order, the sessions
    of every other code. *)
Definition framed (c : option jsstring) (w w' : World) : Prop :=
  codes w' = codes w
  /\ filter (otherThan c) (sessions w') = filter (otherThan c) (sessions w).

(** Every run of [m] relates the state it ends in to the one it started in,
    whether it returns or throws. *)
Definition preserves {A} (R : World -> World -> Prop) (m : Task A) : Prop :=
  forall w, R w (snd (m w)).

Definition emptyWorld : World := mkWorld [] [] [] [].

(** A store with the one access code ["X1"], and the same with a session
    that binds it to the device [d]. *)
Definition sampleCode : jsstring := JS.lit "X1".

Definition seededWorld : World :=
  mkWorld [mkAccessCode sampleCode (encrypt sampleCode) 0] [] [] [].

Definition boundWorld (d : jsstring) : World :=
  setSessions [mkSession sampleCode d 0] seededWorld.

(** *** The routes

    The requests the application answers: a ping; a [POST] whose body has
    strings in its fields; a logout whose [code] is the object [{ $ne: x }];
    a [POST] whose [req.body] is [undefined], which [express.json()] leaves
    so or not according to its version.  Each request meets, while it is
    handled, the failures of the store, the time and the completion endpoint
    of its environment, the store as the passes of the TTL monitor since the
    previous request have left it ([envMonitor]: the sessions they have
    reached), and the plan of the store ([envPick]). *)

Inductive Route : Type := VerifyCodeRoute | LogoutRoute | ChatRoute.

Inductive Request : Type :=
| GetPing
| PostVerifyCode (b : VerifyBody)
| PostLogout (b : LogoutBody)
| PostChat (b : ChatBody)
| PostLogoutNe (x : jsstring)
| PostNoBody (r : Route).

Record Env : Type := mkEnv {
  envFaults : Faults;
  envClock : Z;
  envUpstream : Upstream;
  envMonitor : Session -> bool;
  envPick : nat
}.

Definition handle (e : Env) (r : Request) : Task Response :=
  match r with
  | GetPing => ping
  | PostVerifyCode b => verifyCode (envFaults e) (envClock e) b
  | PostLogout b => logout (envFaults e) b
  | PostChat b => chat (envUpstream e) b
  | PostLogoutNe x => logoutNe (envFaults e) (envPick e) x
  | PostNoBody _ => destructureUndefined
  end.

(** The state a request finds: the sessions that were due at its time and
    that the monitor has reached are gone. *)
Definition arrive (e : Env) (w : World) : World :=
  expire (envClock e) (envMonitor e) w.

(** Requests handled one after the other, each to its end before the next
    begins. *)
Fixpoint serve (rs : list (Env * Request)) (w : World) : World :=
  match rs with
  | [] => w
  | (e, r) :: rs' => serve rs' (snd (handle e r (arrive e w)))
  end.

(** A logout request whose filter matches the sessions of the code [c]. *)
Definition logsOut (c : jsstring) (r : Request) : bool :=
  match r with
  | PostLogout b =>
      JS.truthy (logoutCode b) && JS.sameStored (JS.str (logoutCode b)) c
  | PostLogoutNe x => negb (JS.sameStored x c)
  | _ => false
  end.

(** A request that arrives before the session [s] is due for removal. *)
Definition inTime (s : Session) (e : Env) : bool :=
  (envClock e <? createdAt s + sessionTtl)%Z.

(** *** More notions used to state the properties *)

(** A string of 16-bit code units. *)
Definition sixteenBit (s : jsstring) : Prop := Forall (fun u => (u < 65536)%N) s.

(** A Code Store as seeding writes it: every access code is a non-empty
    ASCII string stored with its own ciphertext. *)
Definition seededStore (w : World) : Prop :=
  forall a, In a (codes w) ->
    JS.isAscii (code a) /\ code a <> [] /\ encryptedCode a = encrypt (code a).

(** Every session is the session of a code the Code Store knows. *)
Definition sessionsOfKnownCodes (w : World) : Prop :=
  forall s, In s (sessions w) -> knownCode w (sessionCode s).

(** Requests that follow one another: device B asks for ["X1"], a ping,
    a logout of another code while the store fails, a chat. *)
Definition sampleTraffic : list (Env * Request) :=
  [ (mkEnv healthy 7 (fun _ => Resolved JNull) (fun _ => true) 0,
     PostVerifyCode (mkVerifyBody (Some sampleCode) (Some (JS.lit "B"))));
    (mkEnv healthy 8 (fun _ => Resolved JNull) (fun _ => true) 0, GetPing);
    (mkEnv (fun _ => FailsAfter) 9 (fun _ => Resolved JNull) (fun _ => true) 0,
     PostLogout (mkLogoutBody (Some (JS.lit "X2"))));
    (mkEnv healthy 10 (fun _ => RejectedNoResponse (JS.lit "timeout")) (fun _ => true) 0,
     PostChat (mkChatBody (Some []))) ].

(** ** Properties *)

(** *** Bytes *)

Lemma to_N_lt_256 (b : byte) : (Byte.to_N b < 256)%N.
Proof. pose proof (Byte.to_N_bounded b). lia. Qed.

Lemma to_N_ofN (n : N) : (n < 256)%N -> Byte.to_N (Bytes.ofN n) = n.
Proof.
  intros Hn. unfold Bytes.ofN. rewrite N.mod_small by exact Hn.
  destruct (Byte.of_N n) as [b|] eqn:E.
  - now apply Byte.to_of_N.
  - apply Byte.of_N_None_iff in E. lia.
Qed.

Lemma ofN_to_N (b : byte) : Bytes.ofN (Byte.to_N b) = b.
Proof.
  unfold Bytes.ofN. rewrite N.mod_small by apply to_N_lt_256.
  now rewrite Byte.of_to_N.
Qed.

Lemma ofN_inj (a b : N) :
  (a < 256)%N -> (b < 256)%N -> Bytes.ofN a = Bytes.ofN b -> a = b.
Proof.
  intros Ha Hb H. rewrite <- (to_N_ofN Ha), <- (to_N_ofN Hb). now rewrite H.
Qed.

Lemma to_N_inj (a b : byte) : Byte.to_N a = Byte.to_N b -> a = b.
Proof. intros H. rewrite <- (ofN_to_N a), <- (ofN_to_N b). now rewrite H. Qed.

Lemma lxor_lt_256 (a b : N) : (a < 256)%N -> (b < 256)%N -> (N.lxor a b < 256)%N.
Proof.
  intros Ha Hb.
  destruct (N.eq_dec (N.lxor a b) 0) as [E|E]; [rewrite E; lia|].
  change 256%N with (2 ^ 8)%N. apply N.log2_lt_pow2; [lia|].
  pose proof (N.log2_lxor a b) as Hl.
  assert (La : (N.log2 a < 8)%N).
  { destruct (N.eq_dec a 0) as [->|Na]; [reflexivity|].
    apply N.log2_lt_pow2; [lia| exact Ha]. }
  assert (Lb : (N.log2 b < 8)%N).
  { destruct (N.eq_dec b 0) as [->|Nb]; [reflexivity|].
    apply N.log2_lt_pow2; [lia| exact Hb]. }
  lia.
Qed.

Lemma xor_involutive (a p : byte) : Bytes.xor (Bytes.xor a p) p = a.
Proof.
  unfold Bytes.xor.
  rewrite to_N_ofN by (apply lxor_lt_256; apply to_N_lt_256).
  rewrite N.lxor_assoc, N.lxor_nilpotent, N.lxor_0_r. apply ofN_to_N.
Qed.

Lemma xor_cancel (a b p : byte) : Bytes.xor a p = Bytes.xor b p -> a = b.
Proof.
  intros H. rewrite <- (xor_involutive a p), <- (xor_involutive b p).
  now rewrite H.
Qed.

Lemma xorBlock_length (a p : list byte) :
  length (Bytes.xorBlock a p) = Nat.min (length a) (length p).
Proof.
  revert p. induction a as [|x a IH]; intros [|y p]; simpl; auto.
Qed.

Lemma xorBlock_inj (p a b : list byte) :
  length a = length p -> length b = length p ->
  Bytes.xorBlock a p = Bytes.xorBlock b p -> a = b.
Proof.
  revert a b. induction p as [|y p IH]; intros [|x a] [|x' b]; simpl;
    intros Ha Hb H; try discriminate; auto.
  injection H as Hx Hr. apply xor_cancel in Hx. subst x'.
  f_equal. apply IH; auto.
Qed.

Lemma app_inj_length {A} (a a' b b' : list A) :
  length a = length a' -> a ++ b = a' ++ b' -> a = a' /\ b = b'.
Proof.
  revert a'. induction a as [|x a IH]; intros [|x' a']; simpl;
    intros Hl H; try discriminate; auto.
  injection H as -> Hr. injection Hl as Hl.
  destruct (IH a' Hl Hr) as [-> ->]. auto.
Qed.

(** *** Hexadecimal output is injective *)

Lemma hexDigit_inj (x y : N) :
  (x < 16)%N -> (y < 16)%N -> Bytes.hexDigit x = Bytes.hexDigit y -> x = y.
Proof.
  unfold Bytes.hexDigit. intros Hx Hy.
  destruct (N.ltb_spec x 10), (N.ltb_spec y 10); lia.
Qed.

Lemma hexByte_inj (a b : byte) : Bytes.hexByte a = Bytes.hexByte b -> a = b.
Proof.
  unfold Bytes.hexByte. intros H. injection H as Hhi Hlo.
  pose proof (to_N_lt_256 a) as Ha. pose proof (to_N_lt_256 b) as Hb.
  apply hexDigit_inj in Hhi;
    [| apply N.Div0.div_lt_upper_bound; lia | apply N.Div0.div_lt_upper_bound; lia].
  apply hexDigit_inj in Hlo; [| apply N.mod_lt; lia | apply N.mod_lt; lia].
  apply to_N_inj.
  rewrite (N.div_mod (Byte.to_N a) 16), (N.div_mod (Byte.to_N b) 16) by lia.
  now rewrite Hhi, Hlo.
Qed.

Lemma hex_app (a b : list byte) : Bytes.hex (a ++ b) = Bytes.hex a ++ Bytes.hex b.
Proof. apply flat_map_app. Qed.

Lemma hex_inj (a b : list byte) : Bytes.hex a = Bytes.hex b -> a = b.
Proof.
  revert b. induction a as [|x a IH]; intros [|y b] H; try discriminate; auto.
  unfold Bytes.hex in H. simpl in H.
  injection H as H1 H2 Hr.
  f_equal.
  - apply hexByte_inj. unfold Bytes.hexByte. now rewrite H1, H2.
  - now apply IH.
Qed.

(** *** UTF-8 on ASCII strings *)

Lemma utf8_ascii (s : jsstring) : JS.isAscii s -> Bytes.utf8 s = map Bytes.ofN s.
Proof.
  induction 1 as [|u s Hu Hs IH]; [reflexivity|].
  cbn [Bytes.utf8 map].
  destruct (N.ltb_spec u 128); [|lia]. now rewrite IH.
Qed.

Lemma utf8_ascii_inj (x y : jsstring) :
  JS.isAscii x -> JS.isAscii y -> Bytes.utf8 x = Bytes.utf8 y -> x = y.
Proof.
  intros Hx Hy. rewrite (utf8_ascii Hx), (utf8_ascii Hy).
  revert y Hy. induction Hx as [|u x Hu Hx IH]; intros y Hy; destruct Hy as [|v y Hv Hy];
    simpl; intros H; try discriminate; auto.
  injection H as H1 H2. f_equal.
  - apply ofN_inj; auto; lia.
  - now apply IH.
Qed.

(** *** UTF-8 is one-to-one on well-formed strings *)

Lemma radix64 (u v : N) :
  (u / 64 = v / 64)%N -> (u mod 64 = v mod 64)%N -> u = v.
Proof.
  intros Hq Hr. rewrite (N.div_mod u 64), (N.div_mod v 64) by lia.
  now rewrite Hq, Hr.
Qed.

Lemma surrogate_range (u : N) :
  JS.isHighSurrogate u = true <-> (0xD800 <= u <= 0xDBFF)%N.
Proof. unfold JS.isHighSurrogate. rewrite andb_true_iff, !N.leb_le. tauto. Qed.

Lemma low_surrogate_range (u : N) :
  JS.isLowSurrogate u = true <-> (0xDC00 <= u <= 0xDFFF)%N.
Proof. unfold JS.isLowSurrogate. rewrite andb_true_iff, !N.leb_le. tauto. Qed.

Lemma utf8_head (u : N) (s : jsstring) :
  JS.wellFormed (u :: s) = true ->
  exists bs rest, Utf8Head (u :: s) bs rest
    /\ Bytes.utf8 (u :: s) = bs ++ Bytes.utf8 rest
    /\ JS.wellFormed rest = true /\ length rest <= length s.
Proof.
  cbn [JS.wellFormed Bytes.utf8]. intros W.
  destruct (JS.isHighSurrogate u) eqn:Hh.
  - apply surrogate_range in Hh.
    destruct (N.ltb_spec u 0x80); [lia|]. destruct (N.ltb_spec u 0x800); [lia|].
    destruct s as [|l rest]; [discriminate|].
    apply andb_true_iff in W. destruct W as [Hl W]. rewrite Hl.
    apply low_surrogate_range in Hl.
    eexists _, rest. split; [apply Head4; assumption|].
    split; [reflexivity|]. split; [assumption| simpl; lia].
  - destruct (JS.isLowSurrogate u) eqn:Hl; [discriminate|].
    apply andb_true_iff in W. destruct W as [Hu W]. apply N.ltb_lt in Hu.
    destruct (N.ltb_spec u 0x80).
    + eexists _, s. split; [apply Head1; assumption|]. auto.
    + destruct (N.ltb_spec u 0x800).
      * eexists _, s. split; [apply Head2; lia|]. auto.
      * eexists _, s. split; [apply Head3; lia|]. auto.
Qed.

Lemma radix64_3 (u v : N) :
  (u / 4096 = v / 4096)%N -> ((u / 64) mod 64 = (v / 64) mod 64)%N ->
  (u mod 64 = v mod 64)%N -> u = v.
Proof.
  intros H1 H2 H3. apply radix64; [|exact H3].
  apply radix64; [|exact H2].
  rewrite !N.Div0.div_div. exact H1.
Qed.

Lemma radix64_4 (u v : N) :
  (u / 262144 = v / 262144)%N -> ((u / 4096) mod 64 = (v / 4096) mod 64)%N ->
  ((u / 64) mod 64 = (v / 64) mod 64)%N -> (u mod 64 = v mod 64)%N -> u = v.
Proof.
  intros H1 H2 H3 H4. apply radix64; [|exact H4].
  apply radix64; [|exact H3].
  rewrite !N.Div0.div_div. apply radix64; [|exact H2].
  rewrite !N.Div0.div_div. exact H1.
Qed.

Lemma continuation_lt (x : N) : (0x80 + x mod 64 < 256)%N.
Proof. pose proof (N.mod_lt x 64). lia. Qed.

Lemma lead2_lt (u : N) : (u < 0x800)%N -> (0xC0 + u / 64 < 0xE0)%N.
Proof. intros H. assert (u / 64 < 32)%N by (apply N.Div0.div_lt_upper_bound; lia). lia. Qed.

Lemma lead3_lt (u : N) : (u < 0x10000)%N -> (0xE0 + u / 4096 < 0xF0)%N.
Proof. intros H. assert (u / 4096 < 16)%N by (apply N.Div0.div_lt_upper_bound; lia). lia. Qed.

Lemma lead4_lt (u : N) : (u < 0x110000)%N -> (0xF0 + u / 262144 < 0xF8)%N.
Proof. intros H. assert (u / 262144 < 8)%N by (apply N.Div0.div_lt_upper_bound; lia). lia. Qed.

Lemma cons_eq {A} (a b : A) (l l' : list A) :
  a :: l = b :: l' -> a = b /\ l = l'.
Proof. intros H. injection H. auto. Qed.

Ltac split_cons :=
  repeat match goal with
  | H : _ :: _ = _ :: _ |- _ =>
      let Hb := fresh "Hb" in apply cons_eq in H; destruct H as [Hb H]
  end.

Ltac atomize :=
  repeat match goal with
  | H : context [(?a / ?b)%N] |- _ =>
      let q := fresh "q" in set (q := (a / b)%N) in *; clearbody q
  | H : context [(?a mod ?b)%N] |- _ =>
      let r := fresh "r" in set (r := (a mod b)%N) in *; clearbody r
  end.

Ltac byte_eqs :=
  repeat match goal with
  | H : Bytes.ofN ?a = Bytes.ofN ?b |- _ =>
      apply ofN_inj in H;
      [ | first [ apply continuation_lt | lia ] | first [ apply continuation_lt | lia ] ]
  end.

Lemma utf8_head_inj (x y : jsstring) (bs bs' : list byte) (rx ry : jsstring)
    (tx ty : list byte) :
  Utf8Head x bs rx -> Utf8Head y bs' ry -> bs ++ tx = bs' ++ ty ->
  tx = ty /\ (rx = ry -> x = y).
Proof.
  intros Hx Hy H.
  destruct Hx as [u rx Hu|u rx Hu|u rx Hu|u l rx Hu Hl];
    destruct Hy as [v ry Hv|v ry Hv|v ry Hv|v l' ry Hv Hl'];
    cbv zeta in H; cbn [app] in H;
    try set (cp := (0x10000 + (u - 0xD800) * 1024 + (l - 0xDC00))%N) in *;
    try set (cp' := (0x10000 + (v - 0xD800) * 1024 + (l' - 0xDC00))%N) in *;
    try assert (Hcp : (cp < 0x110000)%N) by (subst cp; lia);
    try assert (Hcp' : (cp' < 0x110000)%N) by (subst cp'; lia);
    try pose proof (@lead2_lt u ltac:(lia));
    try pose proof (@lead3_lt u ltac:(lia));
    try pose proof (@lead2_lt v ltac:(lia));
    try pose proof (@lead3_lt v ltac:(lia));
    try pose proof (@lead4_lt _ Hcp);
    try pose proof (@lead4_lt _ Hcp');
    split_cons; byte_eqs; try (exfalso; atomize; lia).
  - split; [assumption| intros ->; f_equal; assumption].
  - split; [assumption| intros ->; f_equal; apply radix64; lia].
  - split; [assumption| intros ->; f_equal; apply radix64_3; lia].
  - split; [assumption|].
    assert (cp = cp') by (apply radix64_4; lia).
    intros ->. subst cp cp'. assert (u = v) by lia. assert (l = l') by lia. congruence.
Qed.

Lemma utf8_head_nonempty (x : jsstring) (bs : list byte) (r : jsstring) (t : list byte) :
  Utf8Head x bs r -> bs ++ t <> [].
Proof. intros H. destruct H; discriminate. Qed.

Lemma utf8_wellFormed_inj_bounded (n : nat) : forall x y,
  length x <= n -> JS.wellFormed x = true -> JS.wellFormed y = true ->
  Bytes.utf8 x = Bytes.utf8 y -> x = y.
Proof.
  induction n as [|n IH]; intros [|u s] [|v t] Hn Wx Wy H; auto;
    try (cbn [length] in Hn; lia).
  - exfalso. destruct (@utf8_head _ _ Wy) as (bs & r & Hh & E & _).
    rewrite E in H. symmetry in H. revert H. now apply utf8_head_nonempty with (1 := Hh).
  - exfalso. destruct (@utf8_head _ _ Wy) as (bs & r & Hh & E & _).
    rewrite E in H. symmetry in H. revert H. now apply utf8_head_nonempty with (1 := Hh).
  - exfalso. destruct (@utf8_head _ _ Wx) as (bs & r & Hh & E & _).
    rewrite E in H. revert H. now apply utf8_head_nonempty with (1 := Hh).
  - destruct (@utf8_head _ _ Wx) as (bs & rx & Hx & Ex & Wrx & Lx).
    destruct (@utf8_head _ _ Wy) as (bs' & ry & Hy & Ey & Wry & _).
    rewrite Ex, Ey in H.
    destruct (@utf8_head_inj _ _ _ _ _ _ _ _ Hx Hy H) as [Ht Hxy].
    apply Hxy. apply IH; auto. cbn [length] in Hn. lia.
Qed.

Lemma utf8_wellFormed_inj (x y : jsstring) :
  JS.wellFormed x = true -> JS.wellFormed y = true ->
  Bytes.utf8 x = Bytes.utf8 y -> x = y.
Proof. apply utf8_wellFormed_inj_bounded with (n := length x). lia. Qed.

(** *** The cipher

    What is assumed of AES under the configured key: it maps a 16-byte block
    to a 16-byte block and is one-to-one on them; the IV is 16 bytes long. *)

Section CipherProperties.

Hypothesis iv_length : length iv = blockSize.
Hypothesis aes256_length :
  forall b, length b = blockSize -> length (aes256 key b) = blockSize.
Hypothesis aes256_inj :
  forall a b, length a = blockSize -> length b = blockSize ->
    aes256 key a = aes256 key b -> a = b.

Lemma block_length (prev data : list byte) :
  length prev = blockSize -> blockSize <= length data ->
  length (aes256 key (Bytes.xorBlock (firstn blockSize data) prev)) = blockSize.
Proof.
  intros Hp Hd. apply aes256_length.
  rewrite xorBlock_length, length_firstn. lia.
Qed.

Lemma encryptBlocks_length (n : nat) : forall prev data,
  length prev = blockSize -> blockSize * n <= length data ->
  length (fst (encryptBlocks n prev data)) = blockSize * n
  /\ length (snd (encryptBlocks n prev data)) = blockSize.
Proof.
  induction n as [|n IH]; intros prev data Hp Hd; cbn [encryptBlocks].
  - cbn [fst snd length]. split; [lia | exact Hp].
  - assert (Hc := @block_length prev data Hp ltac:(lia)).
    specialize (IH (aes256 key (Bytes.xorBlock (firstn blockSize data) prev))
                   (skipn blockSize data) Hc).
    rewrite length_skipn in IH. specialize (IH ltac:(lia)).
    destruct (encryptBlocks n _ (skipn blockSize data)) as [out last].
    cbn [fst snd] in *. rewrite length_app. split; [lia | tauto].
Qed.

Lemma encryptBlocks_inj (n : nat) : forall prev d d',
  length prev = blockSize ->
  length d = blockSize * n -> length d' = blockSize * n ->
  fst (encryptBlocks n prev d) = fst (encryptBlocks n prev d') -> d = d'.
Proof.
  induction n as [|n IH]; intros prev d d' Hp Hd Hd' H.
  - destruct d, d'; simpl in *; try lia; reflexivity.
  - cbn [encryptBlocks] in H.
    assert (Hc := @block_length prev d Hp ltac:(lia)).
    assert (Hc' := @block_length prev d' Hp ltac:(lia)).
    set (c := aes256 key (Bytes.xorBlock (firstn blockSize d) prev)) in *.
    set (c' := aes256 key (Bytes.xorBlock (firstn blockSize d') prev)) in *.
    destruct (encryptBlocks n c (skipn blockSize d)) as [out last] eqn:E.
    destruct (encryptBlocks n c' (skipn blockSize d')) as [out' last'] eqn:E'.
    cbn [fst] in H.
    apply app_inj_length in H; [| congruence].
    destruct H as [Hcc Hout].
    assert (Hf : firstn blockSize d = firstn blockSize d').
    { apply (@xorBlock_inj prev); try (rewrite length_firstn; lia).
      apply aes256_inj; try (rewrite xorBlock_length, length_firstn; lia).
      exact Hcc. }
    assert (Hs : skipn blockSize d = skipn blockSize d').
    { apply (IH c); try (rewrite length_skipn; lia); auto.
      rewrite E. fold c' in Hcc. rewrite Hcc, E'. exact Hout. }
    rewrite <- (firstn_skipn blockSize d), <- (firstn_skipn blockSize d').
    now rewrite Hf, Hs.
Qed.

Lemma encryptBlocks_split (n k : nat) : forall prev data,
  encryptBlocks (n + k) prev data =
    (fst (encryptBlocks n prev data)
       ++ fst (encryptBlocks k (snd (encryptBlocks n prev data))
                 (skipn (blockSize * n) data)),
     snd (encryptBlocks k (snd (encryptBlocks n prev data))
            (skipn (blockSize * n) data))).
Proof.
  induction n as [|n IH]; intros prev data.
  - cbn [Nat.add encryptBlocks fst snd app]. rewrite Nat.mul_0_r. cbn [skipn].
    now destruct (encryptBlocks k prev data).
  - cbn [Nat.add encryptBlocks]. rewrite IH.
    destruct (encryptBlocks n _ (skipn blockSize data)) as [out last].
    cbn [fst snd].
    replace (blockSize * S n) with (blockSize * n + blockSize) by lia.
    rewrite <- skipn_skipn. now rewrite app_assoc.
Qed.

Lemma encryptBlocks_prefix (n : nat) : forall prev data extra,
  blockSize * n <= length data ->
  encryptBlocks n prev (data ++ extra) = encryptBlocks n prev data.
Proof.
  induction n as [|n IH]; intros prev data extra Hn; cbn [encryptBlocks]; auto.
  rewrite firstn_app, skipn_app.
  replace (blockSize - length data) with 0 by lia.
  rewrite firstn_O, app_nil_r. cbn [skipn].
  rewrite IH; auto. rewrite length_skipn. lia.
Qed.

Lemma padLength_range (m : list byte) : 1 <= padLength m <= blockSize.
Proof.
  unfold padLength, blockSize.
  pose proof (Nat.mod_upper_bound (length m) 16). lia.
Qed.

Lemma pkcs7_length (m : list byte) :
  length (pkcs7 m) = blockSize * (length m / blockSize + 1).
Proof.
  unfold pkcs7, padLength. rewrite length_app, repeat_length. unfold blockSize.
  pose proof (Nat.div_mod_eq (length m) 16).
  pose proof (Nat.mod_upper_bound (length m) 16). lia.
Qed.

Lemma last_app_repeat {A} (l : list A) (x d : A) (k : nat) :
  1 <= k -> last (l ++ repeat x k) d = x.
Proof.
  destruct k as [|k]; [lia|]. intros _.
  change (repeat x (S k)) with (x :: repeat x k).
  rewrite repeat_cons, app_assoc. apply last_last.
Qed.

Lemma pkcs7_inj (m m' : list byte) : pkcs7 m = pkcs7 m' -> m = m'.
Proof.
  unfold pkcs7. cbv zeta. intros H.
  pose proof (padLength_range m) as Hk. pose proof (padLength_range m') as Hk'.
  unfold blockSize in Hk, Hk'.
  assert (Hl : padLength m = padLength m').
  { apply (f_equal (fun l => last l x00)) in H.
    rewrite !last_app_repeat in H by lia.
    apply ofN_inj in H; lia. }
  rewrite Hl in H. now apply app_inv_tail in H.
Qed.

Lemma pkcs7_skipn (m : list byte) :
  pkcs7 (skipn (blockSize * (length m / blockSize)) m)
  = skipn (blockSize * (length m / blockSize)) (pkcs7 m).
Proof.
  unfold pkcs7, padLength. cbv zeta.
  pose proof (Nat.div_mod_eq (length m) blockSize) as Hdm.
  rewrite skipn_app, length_skipn.
  replace (blockSize * (length m / blockSize) - length m) with 0 by lia.
  cbn [skipn].
  replace (length m - blockSize * (length m / blockSize))
    with (length m mod blockSize) by lia.
  now rewrite Nat.Div0.mod_mod.
Qed.

(** [update] followed by [final] is CBC over the padded message. *)
Lemma encrypt_cbc (text : jsstring) :
  encrypt text
  = Bytes.hex (fst (encryptBlocks (length (Bytes.utf8 text) / blockSize + 1) iv
                      (pkcs7 (Bytes.utf8 text)))).
Proof.
  unfold encrypt, update, createCipheriv, final. cbn [pending chain app].
  set (m := Bytes.utf8 text). set (n := length m / blockSize).
  rewrite encryptBlocks_split. cbn [fst]. rewrite hex_app.
  assert (Hn : blockSize * n <= length m) by (apply Nat.Div0.mul_div_le).
  assert (Hp : encryptBlocks n iv (pkcs7 m) = encryptBlocks n iv m).
  { unfold pkcs7. cbv zeta. now apply encryptBlocks_prefix. }
  assert (Hs : skipn (blockSize * n) (pkcs7 m) = pkcs7 (skipn (blockSize * n) m))
    by (symmetry; apply pkcs7_skipn).
  rewrite Hp, Hs.
  destruct (encryptBlocks n iv m) as [out last]. reflexivity.
Qed.

Lemma encrypt_length (text : jsstring) :
  length (encrypt text) = 2 * (blockSize * (length (Bytes.utf8 text) / blockSize + 1)).
Proof.
  rewrite encrypt_cbc.
  assert (Hh : forall bs, length (Bytes.hex bs) = 2 * length bs).
  { induction bs as [|b bs IH]; [reflexivity|].
    unfold Bytes.hex in *. cbn [flat_map Bytes.hexByte app length]. lia. }
  rewrite Hh. f_equal.
  apply encryptBlocks_length; auto. rewrite pkcs7_length. lia.
Qed.

Lemma encrypt_nonempty (text : jsstring) : encrypt text <> [].
Proof.
  intros H. apply (f_equal (@length N)) in H. rewrite encrypt_length in H.
  unfold blockSize in H. cbn [length] in H. lia.
Qed.

Lemma encrypt_inj_utf8 (x y : jsstring) :
  encrypt x = encrypt y -> Bytes.utf8 x = Bytes.utf8 y.
Proof.
  intros H.
  assert (Hl := f_equal (@length N) H). rewrite !encrypt_length in Hl.
  rewrite !encrypt_cbc in H. apply hex_inj in H.
  assert (Hn : length (Bytes.utf8 x) / blockSize = length (Bytes.utf8 y) / blockSize)
    by (unfold blockSize in *; lia).
  rewrite Hn in H.
  apply pkcs7_inj.
  eapply encryptBlocks_inj; [exact iv_length | | | exact H].
  - rewrite pkcs7_length, Hn. reflexivity.
  - rewrite pkcs7_length. reflexivity.
Qed.

(** C4 (amended).  [encrypt] is a function of its plaintext alone under the
    fixed key and IV: equal plaintexts give equal ciphertexts.  Two plaintexts
    whose UTF-8 encodings differ give distinct ciphertexts; in particular any
    two distinct plaintexts that are well-formed UTF-16 do. *)
Theorem encrypt_deterministic_injective (x y : jsstring) :
  (x = y -> encrypt x = encrypt y)
  /\ (Bytes.utf8 x <> Bytes.utf8 y -> encrypt x <> encrypt y)
  /\ (JS.wellFormed x = true -> JS.wellFormed y = true -> x <> y ->
      encrypt x <> encrypt y).
Proof.
  split; [now intros -> |]. split.
  - intros Hne H. apply Hne. now apply encrypt_inj_utf8.
  - intros Wx Wy Hne H. apply Hne.
    apply utf8_wellFormed_inj; auto. now apply encrypt_inj_utf8.
Qed.

(** *** The random code generator *)

Lemma characters_length : length characters = 72.
Proof. reflexivity. Qed.

Lemma characters_ascii : JS.isAscii characters.
Proof.
  apply Forall_forall. intros u Hu.
  assert (H : forallb (fun u => (u <? 128)%N) characters = true) by reflexivity.
  rewrite forallb_forall in H. apply N.ltb_lt. now apply H.
Qed.

Lemma charAt_characters (i : nat) :
  i < length characters -> JS.charAt characters i = [nth i characters 0%N].
Proof.
  intros Hi. unfold JS.charAt. now rewrite (nth_error_nth' characters 0%N Hi).
Qed.

Lemma generateRandomCode_loop_spec (bytes : list byte) :
  length bytes = codeLength ->
  generateRandomCode_loop bytes
  = map (fun b => nth (N.to_nat (Byte.to_N b) mod 72) characters 0%N) bytes.
Proof.
  unfold codeLength. intros Hl.
  do 13 (destruct bytes as [|? bytes]; try discriminate Hl).
  cbn [generateRandomCode_loop codeLength seq fold_left charIndex nth_error map].
  rewrite !charAt_characters by (apply Nat.mod_upper_bound; discriminate).
  rewrite characters_length. reflexivity.
Qed.

Lemma randomBytes_length (rnd : Entropy) (pos n : nat) :
  length (randomBytes rnd pos n) = n.
Proof. unfold randomBytes. now rewrite length_map, length_seq. Qed.

Lemma generateRandomCode_spec (rnd : Entropy) (pos : nat) :
  fst (generateRandomCode rnd pos)
  = map (fun b => nth (N.to_nat (Byte.to_N b) mod 72) characters 0%N)
        (randomBytes rnd pos 12)
  /\ length (fst (generateRandomCode rnd pos)) = 12
  /\ Forall (fun u => In u characters) (fst (generateRandomCode rnd pos)).
Proof.
  unfold generateRandomCode. cbn [fst snd].
  rewrite generateRandomCode_loop_spec by apply randomBytes_length.
  split; [reflexivity|].
  split; [now rewrite length_map, randomBytes_length|].
  apply Forall_forall. intros u Hu. apply in_map_iff in Hu.
  destruct Hu as (b & <- & _). apply nth_In.
  rewrite characters_length. apply Nat.mod_upper_bound. discriminate.
Qed.

(** C7 (amended).  Every call of the generator returns a string of exactly
    12 characters, each drawn from a fixed alphabet of 72 characters, A-Z,
    a-z, 0-9 and the 10 symbols [!@#$%^&*()]: character [i] is the one at
    the index that byte [i] of the call's one [crypto.randomBytes(12)], a
    byte of the cryptographically secure generator, gives modulo 72.  The
    call draws these twelve bytes and no others. *)
Theorem generateRandomCode_alphabet (rnd : Entropy) (pos : nat) :
  let generated := fst (generateRandomCode rnd pos) in
  generated
  = map (fun b => nth (N.to_nat (Byte.to_N b) mod 72) characters 0%N)
        (randomBytes rnd pos 12)
  /\ length generated = 12
  /\ Forall (fun u => In u characters) generated
  /\ snd (generateRandomCode rnd pos) = pos + 12
  /\ length characters = 72
  /\ characters
     = JS.lit "ABCDEFGHIJKLMNOPQRSTUVWXYZ" ++ JS.lit "abcdefghijklmnopqrstuvwxyz"
         ++ JS.lit "0123456789" ++ JS.lit "!@#$%^&*()"
  /\ length (JS.lit "!@#$%^&*()") = 10
  /\ (forall rnd' pos',
        randomBytes rnd' pos' 12 = randomBytes rnd pos 12 ->
        fst (generateRandomCode rnd' pos') = generated).
Proof.
  cbv zeta. destruct (generateRandomCode_spec rnd pos) as (H1 & H2 & H3).
  split; [exact H1|]. split; [exact H2|]. split; [exact H3|].
  split; [reflexivity|]. split; [reflexivity|]. split; [reflexivity|].
  split; [reflexivity|].
  intros rnd' pos' E. destruct (generateRandomCode_spec rnd' pos') as (H1' & _).
  now rewrite H1, H1', E.
Qed.

Lemma generateRandomCode_ascii (rnd : Entropy) (pos : nat) :
  JS.isAscii (fst (generateRandomCode rnd pos)).
Proof.
  destruct (generateRandomCode_spec rnd pos) as (_ & _ & Hin).
  pose proof characters_ascii as Ha. unfold JS.isAscii in *.
  rewrite Forall_forall in *. intros u Hu. apply Ha, Hin, Hu.
Qed.

Lemma generateRandomCode_nonempty (rnd : Entropy) (pos : nat) :
  fst (generateRandomCode rnd pos) <> [].
Proof.
  destruct (generateRandomCode_spec rnd pos) as (_ & Hl & _).
  intros E. rewrite E in Hl. discriminate.
Qed.

(** *** Seeding *)

Lemma eqb_eq (a b : jsstring) : JS.eqb a b = true <-> a = b.
Proof.
  unfold JS.eqb. destruct (list_eq_dec N.eq_dec a b); split; congruence.
Qed.

Lemma eqb_refl (a : jsstring) : JS.eqb a a = true.
Proof. now apply eqb_eq. Qed.

Lemma eqb_neq (a b : jsstring) : JS.eqb a b = false <-> a <> b.
Proof.
  unfold JS.eqb. destruct (list_eq_dec N.eq_dec a b); split; congruence.
Qed.

Lemma truthy_nonempty (c : jsstring) : JS.truthy (Some c) = true <-> c <> [].
Proof. destruct c; simpl; split; congruence. Qed.

Lemma seedCodes_loop_spec (n : nat) : forall rnd pos acc,
  seedCodes_loop n rnd pos acc
  = acc ++ map (fun k => (fst (generateRandomCode rnd (pos + codeLength * k)),
                          encrypt (fst (generateRandomCode rnd (pos + codeLength * k)))))
               (seq 0 n).
Proof.
  induction n as [|n IH]; intros rnd pos acc.
  - cbn [seedCodes_loop seq map]. now rewrite app_nil_r.
  - cbn [seedCodes_loop]. unfold generateRandomCode at 1. rewrite IH.
    rewrite <- app_assoc. f_equal.
    cbn [seq map app]. rewrite Nat.mul_0_r, Nat.add_0_r.
    unfold generateRandomCode at 1 2. cbn [fst]. f_equal.
    rewrite <- seq_shift, map_map. apply map_ext. intros k.
    now replace (pos + codeLength + codeLength * k) with (pos + codeLength * S k) by lia.
Qed.

Lemma seedCodes_loop_generated (rnd : Entropy) :
  seedCodes_loop seedCount rnd 0 []
  = map (fun c => (c, encrypt c)) (generatedCodes rnd).
Proof.
  rewrite seedCodes_loop_spec. unfold generatedCodes. now rewrite map_map.
Qed.

Lemma insertOrdered_fresh (now : Z) (docs : list (jsstring * jsstring)) :
  forall coll,
    NoDup (map fst docs) ->
    (forall a d, In a coll -> In d docs -> code a <> fst d) ->
    insertOrdered now docs coll
    = (coll ++ map (fun d => mkAccessCode (fst d) (snd d) now) docs, None).
Proof.
  induction docs as [|[c e] docs IH]; intros coll Hnd Hfresh.
  - cbn [insertOrdered map]. now rewrite app_nil_r.
  - cbn [insertOrdered map fst snd] in *.
    assert (Hex : existsb (fun a => JS.eqb (code a) c) coll = false).
    { destruct (existsb _ coll) eqn:E; [|reflexivity].
      apply existsb_exists in E. destruct E as (a & Ha & E).
      apply eqb_eq in E. exfalso.
      apply (Hfresh a (c, e) Ha); [now left | exact E]. }
    rewrite Hex. inversion Hnd as [|? ? Hc Hnd']; subst.
    rewrite IH; auto.
    + now rewrite <- app_assoc.
    + intros a d Ha Hd. apply in_app_or in Ha. destruct Ha as [Ha|[<-|[]]].
      * apply Hfresh; auto. now right.
      * cbn [code]. intros ->. apply Hc. now apply in_map.
Qed.

(** C8 (amended).  On an empty Code Store, when the ten generated codes are
    pairwise distinct, seeding inserts exactly 10 access codes, each a
    generated code with its ciphertext under the fixed key and IV, with all
    [code] and all [encryptedCode] values pairwise distinct; on a store that
    holds at least one record seeding changes no record. *)
Theorem seedCodes_inserts_ten (rnd : Entropy) (now : Z) (w : World) :
  (codes w = [] -> NoDup (generatedCodes rnd) ->
     fst (seedCodes rnd now w) = Returned tt
     /\ codes (snd (seedCodes rnd now w))
        = map (fun c => mkAccessCode c (encrypt c) now) (generatedCodes rnd)
     /\ length (codes (snd (seedCodes rnd now w))) = 10
     /\ NoDup (map code (codes (snd (seedCodes rnd now w))))
     /\ NoDup (map encryptedCode (codes (snd (seedCodes rnd now w))))
     /\ sessions (snd (seedCodes rnd now w)) = sessions w)
  /\ (codes w <> [] ->
     fst (seedCodes rnd now w) = Returned tt
     /\ codes (snd (seedCodes rnd now w)) = codes w
     /\ sessions (snd (seedCodes rnd now w)) = sessions w).
Proof.
  split.
  - intros Hempty Hnd.
    assert (Hvalid : forallb validCodeDoc (seedCodes_loop seedCount rnd 0 []) = true).
    { rewrite seedCodes_loop_generated. apply forallb_forall.
      intros d Hd. apply in_map_iff in Hd. destruct Hd as (c & <- & Hc).
      unfold generatedCodes in Hc. apply in_map_iff in Hc.
      destruct Hc as (k & <- & _).
      unfold validCodeDoc. cbn [fst snd]. apply andb_true_iff. split.
      - apply truthy_nonempty, generateRandomCode_nonempty.
      - apply truthy_nonempty, encrypt_nonempty. }
    assert (Hins : insertOrdered now (seedCodes_loop seedCount rnd 0 []) []
                   = (map (fun c => mkAccessCode c (encrypt c) now) (generatedCodes rnd),
                      None)).
    { rewrite insertOrdered_fresh.
      - rewrite seedCodes_loop_generated, map_map. reflexivity.
      - rewrite seedCodes_loop_generated, map_map. cbn [fst].
        now rewrite map_id.
      - intros a d []. }
    unfold seedCodes. rewrite Hempty. cbn [length Nat.eqb].
    unfold bind, Code_insertMany, consoleLog, modify, setCodes.
    cbn [codes sessions console sent]. rewrite Hvalid, Hins.
    cbn [fst snd codes sessions].
    split; [reflexivity|]. split; [reflexivity|].
    split; [now rewrite length_map; unfold generatedCodes; rewrite length_map, length_seq|].
    split; [now rewrite map_map, map_id|].
    split; [|reflexivity].
    rewrite map_map. cbn [encryptedCode].
    apply NoDup_map_NoDup_ForallPairs; [|exact Hnd].
    intros x y Hx Hy E. unfold generatedCodes in Hx, Hy.
    apply in_map_iff in Hx. destruct Hx as (k & <- & _).
    apply in_map_iff in Hy. destruct Hy as (k' & <- & _).
    apply utf8_ascii_inj; try apply generateRandomCode_ascii.
    now apply encrypt_inj_utf8.
  - intros Hne. unfold seedCodes.
    destruct (codes w) as [|a l] eqn:E; [congruence|].
    cbn [length Nat.eqb]. unfold consoleLog, modify. cbn [fst snd codes sessions].
    rewrite E. auto.
Qed.

End CipherProperties.

(** *** Strings as the store holds them *)

Lemma list_ind2 {A} (P : list A -> Prop) :
  P [] -> (forall a, P [a]) ->
  (forall a b l, P l -> P (b :: l) -> P (a :: b :: l)) ->
  forall l, P l.
Proof.
  intros H0 H1 H2 l. cut (P l /\ forall a, P (a :: l)); [tauto|].
  induction l as [|b l [IH IH']]; split; auto.
Qed.

Lemma high_not_low (u : N) : JS.isHighSurrogate u = true -> JS.isLowSurrogate u = false.
Proof.
  intros H. apply surrogate_range in H.
  destruct (JS.isLowSurrogate u) eqn:E; [|reflexivity].
  apply low_surrogate_range in E. lia.
Qed.

Lemma scrub_pair (u l : N) (r : jsstring) :
  JS.isHighSurrogate u = true -> JS.isLowSurrogate l = true ->
  JS.scrub (u :: l :: r) = u :: l :: JS.scrub r.
Proof. intros Hu Hl. cbn [JS.scrub]. now rewrite Hu, Hl. Qed.

Lemma scrub_lone_high (u l : N) (r : jsstring) :
  JS.isHighSurrogate u = true -> JS.isLowSurrogate l = false ->
  JS.scrub (u :: l :: r) = 0xFFFD%N :: JS.scrub (l :: r).
Proof. intros Hu Hl. cbn [JS.scrub]. now rewrite Hu, Hl. Qed.

Lemma scrub_last_high (u : N) :
  JS.isHighSurrogate u = true -> JS.scrub [u] = [0xFFFD%N].
Proof. intros Hu. cbn [JS.scrub]. now rewrite Hu. Qed.

Lemma scrub_lone_low (u : N) (r : jsstring) :
  JS.isLowSurrogate u = true -> JS.scrub (u :: r) = 0xFFFD%N :: JS.scrub r.
Proof.
  intros Hl. destruct (JS.isHighSurrogate u) eqn:Hu.
  - apply high_not_low in Hu. congruence.
  - cbn [JS.scrub]. now rewrite Hu, Hl.
Qed.

Lemma scrub_plain (u : N) (r : jsstring) :
  JS.isHighSurrogate u = false -> JS.isLowSurrogate u = false ->
  JS.scrub (u :: r) = u :: JS.scrub r.
Proof. intros Hu Hl. cbn [JS.scrub]. now rewrite Hu, Hl. Qed.

Lemma scrub_replacement (r : jsstring) :
  JS.scrub (0xFFFD%N :: r) = 0xFFFD%N :: JS.scrub r.
Proof. now apply scrub_plain. Qed.

(** What the store holds is written back as it is. *)
Lemma scrub_idem (s : jsstring) : JS.scrub (JS.scrub s) = JS.scrub s.
Proof.
  induction s as [|u|u l r IHr IHlr] using list_ind2; [reflexivity| |].
  - destruct (JS.isHighSurrogate u) eqn:Hu.
    + rewrite (@scrub_last_high u Hu). reflexivity.
    + destruct (JS.isLowSurrogate u) eqn:Hl.
      * rewrite (@scrub_lone_low u [] Hl). reflexivity.
      * rewrite (@scrub_plain u [] Hu Hl). change (JS.scrub []) with (@nil N).
        now rewrite (@scrub_plain u [] Hu Hl).
  - destruct (JS.isHighSurrogate u) eqn:Hu.
    + destruct (JS.isLowSurrogate l) eqn:Hl.
      * rewrite (@scrub_pair u l r Hu Hl), (@scrub_pair u l _ Hu Hl). now rewrite IHr.
      * rewrite (@scrub_lone_high u l r Hu Hl), scrub_replacement. now rewrite IHlr.
    + destruct (JS.isLowSurrogate u) eqn:Hl.
      * rewrite (@scrub_lone_low u (l :: r) Hl), scrub_replacement. now rewrite IHlr.
      * rewrite (@scrub_plain u (l :: r) Hu Hl), (@scrub_plain u _ Hu Hl). now rewrite IHlr.
Qed.

(** A well-formed string is held as it is. *)
Lemma wellFormed_scrub (s : jsstring) : JS.wellFormed s = true -> JS.scrub s = s.
Proof.
  induction s as [|u|u l r IHr IHlr] using list_ind2; [reflexivity| |].
  - cbn [JS.wellFormed]. destruct (JS.isHighSurrogate u) eqn:Hu; [discriminate|].
    destruct (JS.isLowSurrogate u) eqn:Hl; [discriminate|].
    intros _. now rewrite (@scrub_plain u [] Hu Hl).
  - change (JS.wellFormed (u :: l :: r))
      with (if JS.isHighSurrogate u then JS.isLowSurrogate l && JS.wellFormed r
            else if JS.isLowSurrogate u then false
            else (u <? 0x10000)%N && JS.wellFormed (l :: r)).
    destruct (JS.isHighSurrogate u) eqn:Hu.
    + intros H. apply andb_true_iff in H. destruct H as [Hl Hr].
      rewrite (@scrub_pair u l r Hu Hl). now rewrite IHr.
    + destruct (JS.isLowSurrogate u) eqn:Hl; [discriminate|].
      intros H. apply andb_true_iff in H. destruct H as [_ Hr].
      rewrite (@scrub_plain u (l :: r) Hu Hl). now rewrite IHlr.
Qed.

Lemma ascii_wellFormed (s : jsstring) : JS.isAscii s -> JS.wellFormed s = true.
Proof.
  induction 1 as [|u s Hu _ IH]; [reflexivity|]. cbn [JS.wellFormed].
  destruct (JS.isHighSurrogate u) eqn:Eh; [apply surrogate_range in Eh; lia|].
  destruct (JS.isLowSurrogate u) eqn:El; [apply low_surrogate_range in El; lia|].
  rewrite IH, andb_true_r. apply N.ltb_lt. lia.
Qed.

Lemma scrub_ascii (s : jsstring) : JS.isAscii s -> JS.scrub s = s.
Proof. intros H. now apply wellFormed_scrub, ascii_wellFormed. Qed.

(** Only an ASCII string is held as that ASCII string. *)
Lemma scrub_eq_ascii (a x : jsstring) :
  JS.isAscii a -> JS.scrub x = a -> x = a.
Proof.
  intros Ha. revert a Ha. induction x as [|u x IH]; intros a Ha H; [exact H|].
  destruct (JS.isHighSurrogate u) eqn:Hu.
  - exfalso. destruct x as [|l x].
    + rewrite (@scrub_last_high u Hu) in H. subst a.
      inversion Ha as [|? ? H1 _]; subst. lia.
    + destruct (JS.isLowSurrogate l) eqn:Hl.
      * rewrite (@scrub_pair u l x Hu Hl) in H. subst a.
        inversion Ha as [|? ? H1 _]; subst. apply surrogate_range in Hu. lia.
      * rewrite (@scrub_lone_high u l x Hu Hl) in H. subst a.
        inversion Ha as [|? ? H1 _]; subst. lia.
  - destruct (JS.isLowSurrogate u) eqn:Hl.
    + exfalso. rewrite (@scrub_lone_low u x Hl) in H. subst a.
      inversion Ha as [|? ? H1 _]; subst. lia.
    + rewrite (@scrub_plain u x Hu Hl) in H. subst a.
      inversion Ha as [|? ? H1 Ha']; subst. f_equal. now apply IH.
Qed.

Lemma utf8_replacement (r : jsstring) :
  Bytes.utf8 (0xFFFD%N :: r) = Bytes.replacement ++ Bytes.utf8 r.
Proof. reflexivity. Qed.

(** The bytes of a string and of the string the store holds for it are the
    same. *)
Lemma utf8_scrub (s : jsstring) : Bytes.utf8 (JS.scrub s) = Bytes.utf8 s.
Proof.
  induction s as [|u|u l r IHr IHlr] using list_ind2; [reflexivity| |].
  - destruct (JS.isHighSurrogate u) eqn:Hu.
    + rewrite (@scrub_last_high u Hu). apply surrogate_range in Hu as Hr.
      cbn [Bytes.utf8]. rewrite Hu.
      destruct (N.ltb_spec u 128); [lia|]. destruct (N.ltb_spec u 2048); [lia|].
      reflexivity.
    + destruct (JS.isLowSurrogate u) eqn:Hl.
      * rewrite (@scrub_lone_low u [] Hl). apply low_surrogate_range in Hl as Hr.
        cbn [Bytes.utf8 JS.scrub]. rewrite Hu, Hl.
        destruct (N.ltb_spec u 128); [lia|]. destruct (N.ltb_spec u 2048); [lia|].
        reflexivity.
      * now rewrite (@scrub_plain u [] Hu Hl).
  - destruct (JS.isHighSurrogate u) eqn:Hu.
    + apply surrogate_range in Hu as Hr.
      assert (E : Bytes.utf8 (u :: l :: r)
                  = if JS.isLowSurrogate l then
                      let cp := (0x10000 + (u - 0xD800) * 1024 + (l - 0xDC00))%N in
                      Bytes.ofN (0xF0 + cp / 262144)
                        :: Bytes.ofN (0x80 + (cp / 4096) mod 64)
                        :: Bytes.ofN (0x80 + (cp / 64) mod 64)
                        :: Bytes.ofN (0x80 + cp mod 64) :: Bytes.utf8 r
                    else Bytes.replacement ++ Bytes.utf8 (l :: r)).
      { change (Bytes.utf8 (u :: l :: r))
          with (if (u <? 0x80)%N then Bytes.ofN u :: Bytes.utf8 (l :: r)
                else if (u <? 0x800)%N then
                  Bytes.ofN (0xC0 + u / 64) :: Bytes.ofN (0x80 + u mod 64)
                    :: Bytes.utf8 (l :: r)
                else if JS.isHighSurrogate u then
                  if JS.isLowSurrogate l then
                    let cp := (0x10000 + (u - 0xD800) * 1024 + (l - 0xDC00))%N in
                    Bytes.ofN (0xF0 + cp / 262144)
                      :: Bytes.ofN (0x80 + (cp / 4096) mod 64)
                      :: Bytes.ofN (0x80 + (cp / 64) mod 64)
                      :: Bytes.ofN (0x80 + cp mod 64) :: Bytes.utf8 r
                  else Bytes.replacement ++ Bytes.utf8 (l :: r)
                else if JS.isLowSurrogate u then Bytes.replacement ++ Bytes.utf8 (l :: r)
                else
                  Bytes.ofN (0xE0 + u / 4096) :: Bytes.ofN (0x80 + (u / 64) mod 64)
                    :: Bytes.ofN (0x80 + u mod 64) :: Bytes.utf8 (l :: r)).
        rewrite Hu.
        destruct (N.ltb_spec u 128); [lia|]. destruct (N.ltb_spec u 2048); [lia|].
        reflexivity. }
      destruct (JS.isLowSurrogate l) eqn:Hl.
      * rewrite (@scrub_pair u l r Hu Hl), E.
        rewrite <- IHr. clear E.
        assert (E' : forall t, Bytes.utf8 (u :: l :: t)
                  = let cp := (0x10000 + (u - 0xD800) * 1024 + (l - 0xDC00))%N in
                    Bytes.ofN (0xF0 + cp / 262144)
                      :: Bytes.ofN (0x80 + (cp / 4096) mod 64)
                      :: Bytes.ofN (0x80 + (cp / 64) mod 64)
                      :: Bytes.ofN (0x80 + cp mod 64) :: Bytes.utf8 t).
        { intros t. cbn [Bytes.utf8]. rewrite Hu, Hl.
          destruct (N.ltb_spec u 128); [lia|]. destruct (N.ltb_spec u 2048); [lia|].
          reflexivity. }
        apply E'.
      * rewrite (@scrub_lone_high u l r Hu Hl), E, utf8_replacement. now rewrite IHlr.
    + destruct (JS.isLowSurrogate u) eqn:Hl.
      * rewrite (@scrub_lone_low u (l :: r) Hl), utf8_replacement, IHlr.
        apply low_surrogate_range in Hl as Hr.
        symmetry.
        change (Bytes.utf8 (u :: l :: r))
          with (if (u <? 0x80)%N then Bytes.ofN u :: Bytes.utf8 (l :: r)
                else if (u <? 0x800)%N then
                  Bytes.ofN (0xC0 + u / 64) :: Bytes.ofN (0x80 + u mod 64)
                    :: Bytes.utf8 (l :: r)
                else if JS.isHighSurrogate u then
                  if JS.isLowSurrogate l then
                    let cp := (0x10000 + (u - 0xD800) * 1024 + (l - 0xDC00))%N in
                    Bytes.ofN (0xF0 + cp / 262144)
                      :: Bytes.ofN (0x80 + (cp / 4096) mod 64)
                      :: Bytes.ofN (0x80 + (cp / 64) mod 64)
                      :: Bytes.ofN (0x80 + cp mod 64) :: Bytes.utf8 r
                  else Bytes.replacement ++ Bytes.utf8 (l :: r)
                else if JS.isLowSurrogate u then Bytes.replacement ++ Bytes.utf8 (l :: r)
                else
                  Bytes.ofN (0xE0 + u / 4096) :: Bytes.ofN (0x80 + (u / 64) mod 64)
                    :: Bytes.ofN (0x80 + u mod 64) :: Bytes.utf8 (l :: r)).
        rewrite Hu, Hl.
        destruct (N.ltb_spec u 128); [lia|]. destruct (N.ltb_spec u 2048); [lia|].
        reflexivity.
      * rewrite (@scrub_plain u (l :: r) Hu Hl).
        assert (E : forall t, Bytes.utf8 (u :: t)
                  = if (u <? 0x80)%N then Bytes.ofN u :: Bytes.utf8 t
                    else if (u <? 0x800)%N then
                      Bytes.ofN (0xC0 + u / 64) :: Bytes.ofN (0x80 + u mod 64)
                        :: Bytes.utf8 t
                    else
                      Bytes.ofN (0xE0 + u / 4096) :: Bytes.ofN (0x80 + (u / 64) mod 64)
                        :: Bytes.ofN (0x80 + u mod 64) :: Bytes.utf8 t).
        { intros t. cbn [Bytes.utf8]. rewrite Hu, Hl. reflexivity. }
        rewrite !E, IHlr. reflexivity.
Qed.

Lemma sameStored_true (a b : jsstring) :
  JS.sameStored a b = true <-> JS.scrub a = JS.scrub b.
Proof. apply eqb_eq. Qed.

Lemma sameStored_false (a b : jsstring) :
  JS.sameStored a b = false <-> JS.scrub a <> JS.scrub b.
Proof. apply eqb_neq. Qed.

Lemma sameStored_refl (a : jsstring) : JS.sameStored a a = true.
Proof. now apply sameStored_true. Qed.

Lemma sameStored_scrub (a : jsstring) : JS.sameStored (JS.scrub a) a = true.
Proof. apply sameStored_true, scrub_idem. Qed.

Lemma setPath_same (old new : jsstring) :
  JS.sameStored old new = true -> setPath old new = old.
Proof. intros H. unfold setPath. now rewrite H. Qed.

Lemma setPath_stored (old new : jsstring) :
  JS.scrub (setPath old new) = JS.scrub new.
Proof.
  unfold setPath. destruct (JS.sameStored old new) eqn:E.
  - now apply sameStored_true.
  - apply scrub_idem.
Qed.

(** On a path that holds a well-formed string, as every path the store has
    written does, the string set is the string held afterwards. *)
Lemma setPath_wellFormed (old new : jsstring) :
  JS.wellFormed old = true -> setPath old new = JS.scrub new.
Proof.
  intros H. unfold setPath. destruct (JS.sameStored old new) eqn:E; [|reflexivity].
  apply sameStored_true in E. now rewrite <- E, wellFormed_scrub.
Qed.

(** *** The session collection under its unique index *)

Lemma hasCode_true (c : jsstring) (s : Session) :
  hasCode c s = true <-> JS.scrub (sessionCode s) = JS.scrub c.
Proof. apply sameStored_true. Qed.

Lemma hasCode_false (c : jsstring) (s : Session) :
  hasCode c s = false <-> JS.scrub (sessionCode s) <> JS.scrub c.
Proof. apply sameStored_false. Qed.

Lemma hasCode_scrub (c : jsstring) (s : Session) :
  hasCode (JS.scrub c) s = hasCode c s.
Proof. unfold hasCode, JS.sameStored. now rewrite scrub_idem. Qed.

Lemma hasCode_own (s : Session) : hasCode (sessionCode s) s = true.
Proof. now apply hasCode_true. Qed.

Lemma find_hasCode_Some (c : jsstring) (l : list Session) (s : Session) :
  find (hasCode c) l = Some s -> In s l /\ hasCode c s = true.
Proof. apply find_some. Qed.

Lemma absent_no_match (c : jsstring) (l : list Session) :
  ~ In (JS.scrub c) (map (fun s => JS.scrub (sessionCode s)) l) ->
  find (hasCode c) l = None /\ filter (hasCode c) l = [].
Proof.
  induction l as [|a l IH]; intros Hn; [auto|].
  cbn [find filter map] in *.
  destruct (hasCode c a) eqn:E.
  - apply hasCode_true in E. exfalso. apply Hn. now left.
  - apply IH. intros Hin. apply Hn. now right.
Qed.

Lemma find_None_absent (c : jsstring) (l : list Session) :
  find (hasCode c) l = None ->
  ~ In (JS.scrub c) (map (fun s => JS.scrub (sessionCode s)) l).
Proof.
  intros H Hin. apply in_map_iff in Hin. destruct Hin as (s & Hs & Hin).
  apply (find_none _ _ H) in Hin. apply hasCode_false in Hin. contradiction.
Qed.

Lemma filter_unique (c : jsstring) (l : list Session) :
  NoDup (map (fun s => JS.scrub (sessionCode s)) l) ->
  filter (hasCode c) l
  = match find (hasCode c) l with
    | Some s => [s]
    | None => []
    end.
Proof.
  induction l as [|a l IH]; intros Hnd; [reflexivity|].
  cbn [map] in Hnd. inversion Hnd as [|? ? Ha Hnd']; subst.
  cbn [filter find]. destruct (hasCode c a) eqn:E.
  - apply hasCode_true in E. rewrite E in Ha.
    now destruct (@absent_no_match _ _ Ha) as [_ ->].
  - now apply IH.
Qed.

Lemma find_unique (c : jsstring) (l : list Session) (s : Session) :
  NoDup (map (fun s => JS.scrub (sessionCode s)) l) -> In s l -> hasCode c s = true ->
  find (hasCode c) l = Some s.
Proof.
  intros Hnd Hin Hc.
  assert (Hf : In s (filter (hasCode c) l)).
  { apply filter_In. now split. }
  rewrite filter_unique in Hf by exact Hnd.
  destruct (find (hasCode c) l) as [s'|]; [|destruct Hf].
  destruct Hf as [->|[]]. reflexivity.
Qed.

Lemma updateFirst_None (c d : jsstring) (l : list Session) :
  find (hasCode c) l = None -> updateFirst c d l = None.
Proof.
  induction l as [|a l IH]; [reflexivity|]. cbn [find updateFirst].
  destruct (hasCode c a); [discriminate|]. intros H. now rewrite IH.
Qed.

Lemma updateFirst_Some (c d : jsstring) (l : list Session) (s : Session) :
  find (hasCode c) l = Some s ->
  exists l', updateFirst c d l = Some l'
    /\ map (fun s => JS.scrub (sessionCode s)) l'
       = map (fun s => JS.scrub (sessionCode s)) l
    /\ find (hasCode c) l'
       = Some (mkSession (sessionCode s) (setPath (deviceId s) d) (createdAt s))
    /\ filter (fun x => negb (hasCode c x)) l' = filter (fun x => negb (hasCode c x)) l.
Proof.
  induction l as [|a l IH]; [discriminate|]. cbn [find updateFirst].
  destruct (hasCode c a) eqn:E.
  - intros H. injection H as ->. eexists. split; [reflexivity|].
    rewrite (@setPath_same (sessionCode s) c E).
    cbn [map find filter sessionCode]. unfold hasCode at 1 3. cbn [sessionCode].
    fold (hasCode c s). rewrite E. cbn [negb]. auto.
  - intros H. destruct (IH H) as (l' & -> & Hm & Hf & Ho).
    eexists. split; [reflexivity|].
    cbn [map find filter option_map]. rewrite E. cbn [negb]. rewrite Hm, Ho. auto.
Qed.

Lemma hasCode_inserted (now : Z) (c d : jsstring) :
  hasCode c (mkSession (JS.scrub c) (JS.scrub d) now) = true.
Proof. unfold hasCode. cbn [sessionCode]. apply sameStored_scrub. Qed.

Lemma upsert_others (now : Z) (c d : jsstring) (l : list Session) :
  filter (fun x => negb (hasCode c x)) (upsert now c d l)
  = filter (fun x => negb (hasCode c x)) l.
Proof.
  unfold upsert. destruct (find (hasCode c) l) as [s|] eqn:E.
  - destruct (@updateFirst_Some c d l s E) as (l' & -> & _ & _ & Ho). exact Ho.
  - rewrite (@updateFirst_None c d l E), filter_app. cbn [filter].
    rewrite hasCode_inserted. cbn [negb]. now rewrite app_nil_r.
Qed.

Lemma upsert_unique (now : Z) (c d : jsstring) (l : list Session) :
  NoDup (map (fun s => JS.scrub (sessionCode s)) l) ->
  NoDup (map (fun s => JS.scrub (sessionCode s)) (upsert now c d l)).
Proof.
  intros Hnd. unfold upsert. destruct (find (hasCode c) l) as [s|] eqn:E.
  - destruct (@updateFirst_Some c d l s E) as (l' & -> & Hm & _). now rewrite Hm.
  - rewrite (@updateFirst_None c d l E), map_app. cbn [map sessionCode].
    apply NoDup_app; [exact Hnd | repeat constructor; intros [] |].
    intros x Hx [<-|[]]. rewrite scrub_idem in Hx.
    now apply (@find_None_absent c l E).
Qed.

Lemma find_append {A} (f : A -> bool) (l l' : list A) :
  find f (l ++ l') = match find f l with
                     | Some x => Some x
                     | None => find f l'
                     end.
Proof.
  induction l as [|a l IH]; [reflexivity|]. cbn [app find].
  now destruct (f a).
Qed.

Lemma upsert_keyed (now : Z) (c d : jsstring) (l : list Session) :
  NoDup (map (fun s => JS.scrub (sessionCode s)) l) ->
  filter (hasCode c) (upsert now c d l)
  = [match find (hasCode c) l with
     | Some s => mkSession (sessionCode s) (setPath (deviceId s) d) (createdAt s)
     | None => mkSession (JS.scrub c) (JS.scrub d) now
     end].
Proof.
  intros Hnd. rewrite filter_unique by now apply upsert_unique.
  unfold upsert. destruct (find (hasCode c) l) as [s|] eqn:E.
  - destruct (@updateFirst_Some c d l s E) as (l' & -> & _ & -> & _). reflexivity.
  - rewrite (@updateFirst_None c d l E).
    rewrite find_append. rewrite E. cbn [find]. now rewrite hasCode_inserted.
Qed.

Lemma deleteFirst_others (c : jsstring) (l : list Session) :
  filter (fun x => negb (hasCode c x)) (deleteFirst c l)
  = filter (fun x => negb (hasCode c x)) l.
Proof.
  induction l as [|a l IH]; [reflexivity|]. cbn [deleteFirst filter].
  destruct (hasCode c a) eqn:E; cbn [negb filter]; [reflexivity|].
  rewrite E. cbn [negb]. now rewrite IH.
Qed.

Lemma deleteFirst_incl (c : jsstring) (l : list Session) :
  incl (deleteFirst c l) l.
Proof.
  induction l as [|a l IH]; [apply incl_refl|]. cbn [deleteFirst].
  destruct (hasCode c a).
  - apply incl_tl, incl_refl.
  - apply incl_cons; [now left | now apply incl_tl].
Qed.

Lemma deleteNth_incl (p : Session -> bool) (l : list Session) :
  forall n, incl (deleteNth p n l) l.
Proof.
  induction l as [|a l IH]; intros n; [apply incl_refl|]. cbn [deleteNth].
  destruct (p a); [destruct n as [|n]|].
  - apply incl_tl, incl_refl.
  - apply incl_cons; [now left | apply incl_tl, IH].
  - apply incl_cons; [now left | apply incl_tl, IH].
Qed.

Lemma deleteFirst_unique (c : jsstring) (l : list Session) :
  NoDup (map (fun s => JS.scrub (sessionCode s)) l) ->
  NoDup (map (fun s => JS.scrub (sessionCode s)) (deleteFirst c l)).
Proof.
  induction l as [|a l IH]; intros Hnd; [exact Hnd|].
  cbn [map] in Hnd. inversion Hnd as [|? ? Ha Hnd']; subst.
  cbn [deleteFirst]. destruct (hasCode c a); [exact Hnd'|].
  cbn [map]. constructor; [|now apply IH].
  intros Hin. apply Ha. apply in_map_iff in Hin. destruct Hin as (x & Hx & Hin).
  apply in_map_iff. exists x. split; [exact Hx|]. now apply (deleteFirst_incl c l).
Qed.

Lemma deleteNth_unique (p : Session -> bool) (l : list Session) :
  forall n,
  NoDup (map (fun s => JS.scrub (sessionCode s)) l) ->
  NoDup (map (fun s => JS.scrub (sessionCode s)) (deleteNth p n l)).
Proof.
  induction l as [|a l IH]; intros n Hnd; [exact Hnd|].
  cbn [map] in Hnd. inversion Hnd as [|? ? Ha Hnd']; subst.
  assert (Hkeep : NoDup (map (fun s => JS.scrub (sessionCode s))
                           (a :: deleteNth p n l))).
  { cbn [map]. constructor; [|now apply IH].
    intros Hin. apply Ha. apply in_map_iff in Hin. destruct Hin as (y & Hy & Hin).
    apply in_map_iff. exists y. split; [exact Hy|]. now apply (deleteNth_incl p l n). }
  cbn [deleteNth]. destruct (p a); [destruct n as [|n]|]; [exact Hnd' | |exact Hkeep].
  cbn [map]. constructor; [|now apply IH].
  intros Hin. apply Ha. apply in_map_iff in Hin. destruct Hin as (y & Hy & Hin).
  apply in_map_iff. exists y. split; [exact Hy|]. now apply (deleteNth_incl p l n).
Qed.

Lemma filter_unique_keys (p : Session -> bool) (l : list Session) :
  NoDup (map (fun s => JS.scrub (sessionCode s)) l) ->
  NoDup (map (fun s => JS.scrub (sessionCode s)) (filter p l)).
Proof.
  induction l as [|a l IH]; intros Hnd; [exact Hnd|].
  cbn [map] in Hnd. inversion Hnd as [|? ? Ha Hnd']; subst.
  cbn [filter]. destruct (p a); [|now apply IH].
  cbn [map]. constructor; [|now apply IH].
  intros Hin. apply Ha. apply in_map_iff in Hin. destruct Hin as (y & Hy & Hin).
  apply in_map_iff. exists y. split; [exact Hy|]. now apply filter_In in Hin.
Qed.

Lemma deleteFirst_keyed (c : jsstring) (l : list Session) :
  NoDup (map (fun s => JS.scrub (sessionCode s)) l) ->
  filter (hasCode c) (deleteFirst c l) = [].
Proof.
  induction l as [|a l IH]; intros Hnd; [reflexivity|].
  cbn [map] in Hnd. inversion Hnd as [|? ? Ha Hnd']; subst.
  cbn [deleteFirst]. destruct (hasCode c a) eqn:E.
  - apply hasCode_true in E. rewrite E in Ha. now destruct (@absent_no_match _ _ Ha).
  - cbn [filter]. rewrite E. now apply IH.
Qed.

(** *** The request handlers on a store that answers *)

Ltac unfold_handlers :=
  unfold verifyCode, logout, chat, tryCatch, bind, ret, throw, Code_findOne,
    Session_findOne, Session_findOneAndUpdate, Session_deleteOne, storeCall,
    consoleLog, modify, axiosPost.

Lemma knownCode_find (w : World) (c : jsstring) :
  knownCode w c ->
  exists a, find (fun a => JS.eqb (encryptedCode a) (encrypt c)) (codes w) = Some a.
Proof.
  intros (a & Hin & He).
  destruct (find (fun a => JS.eqb (encryptedCode a) (encrypt c)) (codes w)) as [a'|] eqn:E.
  - now exists a'.
  - apply (find_none _ _ E) in Hin. rewrite He, eqb_refl in Hin. discriminate.
Qed.

Lemma stored_code_known (w : World) (a : AccessCode) :
  In a (codes w) -> encryptedCode a = encrypt (code a) -> knownCode w (code a).
Proof. intros Hin He. now exists a. Qed.

Lemma unknown_find (w : World) (c : jsstring) :
  (forall a, In a (codes w) -> encryptedCode a <> encrypt c) ->
  find (fun a => JS.eqb (encryptedCode a) (encrypt c)) (codes w) = None.
Proof.
  intros H.
  destruct (find (fun a => JS.eqb (encryptedCode a) (encrypt c)) (codes w)) as [a|] eqn:E;
    [|reflexivity].
  apply find_some in E. destruct E as [Hin E]. apply eqb_eq in E.
  now apply H in Hin.
Qed.

Lemma filter_nil_find {A} (f : A -> bool) (l : list A) :
  filter f l = [] -> find f l = None.
Proof.
  induction l as [|a l IH]; [reflexivity|]. cbn [filter find].
  destruct (f a); [discriminate | exact IH].
Qed.

Lemma verifyCode_accept (now : Z) (c d : jsstring) (w : World) :
  c <> [] -> d <> [] -> knownCode w c ->
  deviceConflict (find (hasCode c) (sessions w)) d = false ->
  verifyCode healthy now (mkVerifyBody (Some c) (Some d)) w
  = (Returned (mkResponse 200 (JObj [(JS.lit "valid", JBool true)])),
     setSessions (upsert now c d (sessions w)) w).
Proof.
  intros Hc Hd Hk Hconf. apply truthy_nonempty in Hc, Hd.
  destruct (@knownCode_find w c Hk) as (a & Ha).
  unfold_handlers. cbn [reqCode reqDeviceId JS.str healthy].
  rewrite Hc, Hd. cbn [negb orb]. rewrite Ha, Hconf. reflexivity.
Qed.

Lemma logout_accept (c : jsstring) (w : World) :
  c <> [] ->
  logout healthy (mkLogoutBody (Some c)) w
  = (Returned (mkResponse 200 (JObj [(JS.lit "success", JBool true)])),
     setSessions (deleteFirst c (sessions w)) w).
Proof.
  intros Hc. apply truthy_nonempty in Hc.
  unfold_handlers. cbn [logoutCode JS.str healthy]. rewrite Hc. reflexivity.
Qed.

Lemma same_device_no_conflict (c d : jsstring) (l : list Session) :
  (forall s, In s l -> hasCode c s = true -> deviceId s = d) ->
  deviceConflict (find (hasCode c) l) d = false.
Proof.
  intros H. destruct (find (hasCode c) l) as [s|] eqn:E; [|reflexivity].
  apply find_hasCode_Some in E. destruct E as [Hin Hs].
  cbn [deviceConflict]. rewrite (H s Hin Hs), eqb_refl. reflexivity.
Qed.

Lemma session_eta (s : Session) :
  mkSession (sessionCode s) (deviceId s) (createdAt s) = s.
Proof. now destruct s. Qed.

(** The session of the code after an upsert from the device it is bound to,
    or from any device when it is bound to none. *)
Lemma upsert_bound (now : Z) (c d : jsstring) (l : list Session) :
  NoDup (map (fun s => JS.scrub (sessionCode s)) l) ->
  (forall s, In s l -> hasCode c s = true -> deviceId s = d) ->
  filter (hasCode c) (upsert now c d l)
  = [match find (hasCode c) l with
     | Some s => s
     | None => mkSession (JS.scrub c) (JS.scrub d) now
     end].
Proof.
  intros Hnd Hsame. rewrite upsert_keyed by exact Hnd.
  destruct (find (hasCode c) l) as [s|] eqn:E; [|reflexivity].
  apply find_hasCode_Some in E. destruct E as [Hin Hs].
  rewrite setPath_same by (rewrite (Hsame s Hin Hs); apply sameStored_refl).
  now rewrite session_eta.
Qed.

(** C1 (amended).  On a store that answers, a verification request with
    non-empty code and deviceId, whose code is known to the Code Store and is
    bound to no Session or to a Session of the same deviceId, is answered
    [{valid: true}] and leaves exactly one Session for the code.  On a
    re-login from the same device that Session is the existing one, with its
    creation timestamp.  Otherwise it is created by the request, with the
    time of the request, and holds the code and the deviceId as the store
    writes them: it is bound to the request's deviceId when that is a
    well-formed string, and to the deviceId with U+FFFD in the place of
    every unpaired surrogate when it is not. *)
Theorem verifyCode_accepts_and_binds (now : Z) (c d : jsstring) (w : World) :
  c <> [] -> d <> [] -> knownCode w c -> uniqueSessions w ->
  (forall s, In s (sessions w) -> hasCode c s = true -> deviceId s = d) ->
  let w' := snd (verifyCode healthy now (mkVerifyBody (Some c) (Some d)) w) in
  let bound := match find (hasCode c) (sessions w) with
               | Some s => s
               | None => mkSession (JS.scrub c) (JS.scrub d) now
               end in
  fst (verifyCode healthy now (mkVerifyBody (Some c) (Some d)) w)
  = Returned (mkResponse 200 (JObj [(JS.lit "valid", JBool true)]))
  /\ filter (hasCode c) (sessions w') = [bound]
  /\ JS.scrub (deviceId bound) = JS.scrub d
  /\ (JS.wellFormed d = true -> deviceId bound = d)
  /\ createdAt bound = match find (hasCode c) (sessions w) with
                       | Some s => createdAt s
                       | None => now
                       end
  /\ filter (otherThan (Some c)) (sessions w') = filter (otherThan (Some c)) (sessions w)
  /\ uniqueSessions w'
  /\ codes w' = codes w.
Proof.
  intros Hc Hd Hk Hu Hsame w' bound. subst w'.
  rewrite (@verifyCode_accept now c d w Hc Hd Hk (@same_device_no_conflict c d _ Hsame)).
  cbn [fst snd]. unfold uniqueSessions, setSessions. cbn [sessions codes].
  split; [reflexivity|].
  split; [now apply upsert_bound|].
  assert (Hdev : deviceId bound = d \/ deviceId bound = JS.scrub d).
  { subst bound. destruct (find (hasCode c) (sessions w)) as [s|] eqn:E.
    - left. apply find_hasCode_Some in E. destruct E as [Hin Hs]. now apply Hsame.
    - now right. }
  split; [destruct Hdev as [-> | ->]; [reflexivity | apply scrub_idem]|].
  split; [intros Hwf; destruct Hdev as [-> | ->];
          [reflexivity | now apply wellFormed_scrub]|].
  split; [subst bound; now destruct (find (hasCode c) (sessions w))|].
  split; [apply upsert_others|].
  split; [now apply upsert_unique | reflexivity].
Qed.

(** C2 (amended).  On a store that answers, a verification request with
    non-empty code and deviceId, whose code is known to the Code Store and
    bound by a Session to another deviceId, is answered with status 403 and
    changes nothing: the Session keeps its deviceId. *)
Theorem verifyCode_refuses_other_device (now : Z) (c d : jsstring) (w : World)
    (s : Session) :
  c <> [] -> d <> [] -> knownCode w c -> uniqueSessions w ->
  In s (sessions w) -> sessionCode s = c -> deviceId s <> d ->
  verifyCode healthy now (mkVerifyBody (Some c) (Some d)) w
  = (Returned (mkResponse 403
                 (errorBody "This code is already in use on another device.")),
     w).
Proof.
  intros Hc Hd Hk Hu Hin Hs Hdev. apply truthy_nonempty in Hc, Hd.
  destruct (@knownCode_find w c Hk) as (a & Ha).
  unfold_handlers. cbn [reqCode reqDeviceId JS.str healthy].
  rewrite Hc, Hd. cbn [negb orb]. rewrite Ha.
  assert (Hm : hasCode c s = true) by (rewrite <- Hs; apply hasCode_own).
  rewrite (@find_unique c (sessions w) s Hu Hin Hm). cbn [deviceConflict].
  apply eqb_neq in Hdev. rewrite Hdev. reflexivity.
Qed.

(** C3 (amended).  On a store that answers, a verification request with
    non-empty code and deviceId, whose code's ciphertext matches no access
    code of the Code Store, is answered [{valid: false}] with status 200,
    whatever the deviceId, and changes nothing: no Session is created or
    modified. *)
Theorem verifyCode_unknown_code (now : Z) (c d : jsstring) (w : World) :
  c <> [] -> d <> [] ->
  (forall a, In a (codes w) -> encryptedCode a <> encrypt c) ->
  verifyCode healthy now (mkVerifyBody (Some c) (Some d)) w
  = (Returned (mkResponse 200 (JObj [(JS.lit "valid", JBool false)])), w).
Proof.
  intros Hc Hd Hun. apply truthy_nonempty in Hc, Hd.
  unfold_handlers. cbn [reqCode reqDeviceId JS.str healthy].
  rewrite Hc, Hd. cbn [negb orb]. rewrite (@unknown_find w c Hun). reflexivity.
Qed.

(** C5.  On a store that answers, logout with a non-empty code deletes the
    Session of that code, without any check of the device or of the Code
    Store, and answers [{success: true}] whether or not a Session existed;
    without a code (missing or empty) the answer is status 400 and nothing
    changes. *)
Theorem logout_deletes_session (c : jsstring) (w : World) :
  c <> [] -> uniqueSessions w ->
  fst (logout healthy (mkLogoutBody (Some c)) w)
  = Returned (mkResponse 200 (JObj [(JS.lit "success", JBool true)]))
  /\ filter (hasCode c) (sessions (snd (logout healthy (mkLogoutBody (Some c)) w))) = []
  /\ filter (otherThan (Some c)) (sessions (snd (logout healthy (mkLogoutBody (Some c)) w)))
     = filter (otherThan (Some c)) (sessions w)
  /\ codes (snd (logout healthy (mkLogoutBody (Some c)) w)) = codes w
  /\ (forall f w0, logout f (mkLogoutBody None) w0
                   = (Returned (mkResponse 400 (errorBody "Code required")), w0))
  /\ (forall f w0, logout f (mkLogoutBody (Some [])) w0
                   = (Returned (mkResponse 400 (errorBody "Code required")), w0)).
Proof.
  intros Hc Hu. rewrite (@logout_accept c w Hc).
  cbn [fst snd]. unfold setSessions. cbn [sessions codes].
  split; [reflexivity|].
  split; [now apply deleteFirst_keyed|].
  split; [apply deleteFirst_others|].
  repeat split.
Qed.

(** C6 (amended).  On a store that answers, for a seeded code bound to a
    device A, logout of the code followed by a verification of the code from
    any non-empty device B, B different from A included, is answered
    [{valid: true}] and leaves the code's Session bound to B as the store
    holds it: to B itself when B is a well-formed string. *)
Theorem logout_then_verify_rebinds (now t : Z) (c dA dB : jsstring) (w : World) :
  c <> [] -> dB <> [] -> knownCode w c -> uniqueSessions w ->
  In (mkSession c dA t) (sessions w) ->
  fst (verifyCode healthy now (mkVerifyBody (Some c) (Some dB))
         (snd (logout healthy (mkLogoutBody (Some c)) w)))
  = Returned (mkResponse 200 (JObj [(JS.lit "valid", JBool true)]))
  /\ filter (hasCode c)
       (sessions (snd (verifyCode healthy now (mkVerifyBody (Some c) (Some dB))
                         (snd (logout healthy (mkLogoutBody (Some c)) w)))))
     = [mkSession (JS.scrub c) (JS.scrub dB) now]
  /\ (JS.wellFormed c = true -> JS.wellFormed dB = true ->
      filter (hasCode c)
        (sessions (snd (verifyCode healthy now (mkVerifyBody (Some c) (Some dB))
                          (snd (logout healthy (mkLogoutBody (Some c)) w)))))
      = [mkSession c dB now]).
Proof.
  intros Hc Hd Hk Hu Hin. rewrite (@logout_accept c w Hc). cbn [snd].
  assert (Hnone : find (hasCode c) (deleteFirst c (sessions w)) = None)
    by (apply filter_nil_find; now apply deleteFirst_keyed).
  assert (Hk' : knownCode (setSessions (deleteFirst c (sessions w)) w) c) by exact Hk.
  rewrite (@verifyCode_accept now c dB _ Hc Hd Hk');
    [| unfold setSessions; cbn [sessions]; now rewrite Hnone].
  cbn [fst snd]. unfold setSessions. cbn [sessions].
  split; [reflexivity|].
  assert (Hb : filter (hasCode c) (upsert now c dB (deleteFirst c (sessions w)))
               = [mkSession (JS.scrub c) (JS.scrub dB) now]).
  { rewrite upsert_keyed by now apply deleteFirst_unique. now rewrite Hnone. }
  split; [exact Hb|].
  intros Hwc Hwd. rewrite Hb. now rewrite !wellFormed_scrub.
Qed.

(** *** The chat proxy *)

(** C9.  A chat request with messages sends them unmodified to the
    completion endpoint, with the fixed model, temperature and maximum token
    count, and relays the upstream body on success; on any rejection the
    answer is status 500 with one fixed body, the same for every upstream
    error; without messages the answer is status 400 and nothing is sent. *)
Theorem chat_forwards_and_relays (upstream : Upstream) (msgs : list Message)
    (w : World) :
  sent (snd (chat upstream (mkChatBody (Some msgs)) w))
  = sent w ++ [completionRequest msgs]
  /\ messages (completionRequest msgs) = msgs
  /\ model (completionRequest msgs) = JS.lit "gpt-3.5-turbo"
  /\ temperature (completionRequest msgs) = (8, -1)%Z
  /\ max_tokens (completionRequest msgs) = 150%Z
  /\ fst (chat upstream (mkChatBody (Some msgs)) w)
     = Returned (match upstream (completionRequest msgs) with
                 | Resolved data => mkResponse 200 data
                 | RejectedWithResponse _ | RejectedNoResponse _ =>
                     mkResponse 500 (errorBody "Failed to generate response")
                 end)
  /\ chat upstream (mkChatBody None) w
     = (Returned (mkResponse 400 (errorBody "Messages required")), w).
Proof.
  unfold_handlers. cbn [reqMessages].
  destruct (upstream (completionRequest msgs)); cbn [fst snd sent];
    repeat split.
Qed.

(** *** What a request may touch *)

Lemma framed_refl (c : option jsstring) (w : World) : framed c w w.
Proof. split; reflexivity. Qed.

Lemma framed_trans (c : option jsstring) (w1 w2 w3 : World) :
  framed c w1 w2 -> framed c w2 w3 -> framed c w1 w3.
Proof. intros [H1 H2] [H3 H4]. split; congruence. Qed.

Section Preservation.

Variable R : World -> World -> Prop.
Hypothesis R_refl : forall w, R w w.
Hypothesis R_trans : forall w1 w2 w3, R w1 w2 -> R w2 w3 -> R w1 w3.

Lemma preserves_ret {A} (a : A) : preserves R (ret a).
Proof. intros w. apply R_refl. Qed.

Lemma preserves_bind {A B} (m : Task A) (k : A -> Task B) :
  preserves R m -> (forall a, preserves R (k a)) -> preserves R (bind m k).
Proof.
  intros Hm Hk w. unfold bind. specialize (Hm w).
  destruct (m w) as [[a|e] w']; cbn [snd] in *; [|exact Hm].
  eapply R_trans; [exact Hm | apply Hk].
Qed.

Lemma preserves_tryCatch {A} (m : Task A) (h : Exn -> Task A) :
  preserves R m -> (forall e, preserves R (h e)) -> preserves R (tryCatch m h).
Proof.
  intros Hm Hh w. unfold tryCatch. specialize (Hm w).
  destruct (m w) as [[a|e] w']; cbn [snd] in *; [exact Hm|].
  eapply R_trans; [exact Hm | apply Hh].
Qed.

Lemma preserves_storeCall {A} (f : Faults) (op : StoreOp) (read : World -> A)
    (write : World -> World) :
  (forall w, R w (write w)) -> preserves R (storeCall f op read write).
Proof.
  intros Hw w. unfold storeCall. destruct (f op); cbn [snd]; auto.
Qed.

End Preservation.

Lemma preserves_consoleLog (c : option jsstring) (line : list LogArg) :
  preserves (framed c) (consoleLog line).
Proof. intros w. split; reflexivity. Qed.

Lemma preserves_axiosPost (c : option jsstring) (upstream : Upstream)
    (r : CompletionRequest) :
  preserves (framed c) (axiosPost upstream r).
Proof.
  intros w. unfold axiosPost. destruct (upstream r); split; reflexivity.
Qed.

Lemma preserves_upsert (f : Faults) (now : Z) (c d : jsstring) :
  preserves (framed (Some c)) (Session_findOneAndUpdate f now c d).
Proof.
  apply preserves_storeCall; [apply framed_refl|].
  intros w. split; [reflexivity|]. apply upsert_others.
Qed.

Lemma preserves_delete (f : Faults) (c : jsstring) :
  preserves (framed (Some c)) (Session_deleteOne f c).
Proof.
  apply preserves_storeCall; [apply framed_refl|].
  intros w. split; [reflexivity|]. apply deleteFirst_others.
Qed.

Ltac frame :=
  repeat first
    [ apply preserves_ret; apply framed_refl
    | apply preserves_consoleLog
    | apply preserves_axiosPost
    | apply preserves_upsert
    | apply preserves_delete
    | apply preserves_storeCall; [apply framed_refl | intros ?; apply framed_refl]
    | apply preserves_bind; [apply framed_trans | | intros ?]
    | apply preserves_tryCatch; [apply framed_trans | | intros ?]
    | match goal with
      | |- preserves _ (match ?x with _ => _ end) => destruct x
      end ].

Lemma verifyCode_frame (f : Faults) (now : Z) (req : VerifyBody) :
  preserves (framed (reqCode req)) (verifyCode f now req).
Proof.
  destruct req as [[c|] rd]; unfold verifyCode; cbn [reqCode reqDeviceId JS.str];
    [|cbn [JS.truthy negb orb]; frame].
  destruct (negb (JS.truthy (Some c)) || negb (JS.truthy rd)); frame.
Qed.

Lemma logout_frame (f : Faults) (req : LogoutBody) :
  preserves (framed (logoutCode req)) (logout f req).
Proof.
  destruct req as [[c|]]; unfold logout; cbn [logoutCode JS.str];
    [|cbn [JS.truthy negb]; frame].
  destruct (negb (JS.truthy (Some c))); frame.
Qed.

Lemma chat_frame (upstream : Upstream) (req : ChatBody) :
  preserves (framed None) (chat upstream req).
Proof. unfold chat. frame. Qed.

Lemma framed_None (w w' : World) :
  framed None w w' -> codes w' = codes w /\ sessions w' = sessions w.
Proof.
  intros [Hc Hs]. split; [exact Hc|].
  unfold otherThan in Hs.
  assert (Hall : forall l : list Session, filter (fun _ => true) l = l)
    by (induction l as [|a l IH]; cbn [filter]; congruence).
  now rewrite !Hall in Hs.
Qed.

(** The handlers keep the unique index on the [code] of a session. *)
Lemma handlers_keep_unique (f : Faults) (now : Z) (vreq : VerifyBody)
    (lreq : LogoutBody) (w : World) :
  uniqueSessions w ->
  uniqueSessions (snd (verifyCode f now vreq w))
  /\ uniqueSessions (snd (logout f lreq w)).
Proof.
  intros Hu.
  set (R := fun w w' : World => uniqueSessions w -> uniqueSessions w').
  assert (Rr : forall w, R w w) by (intros ? H; exact H).
  assert (Rt : forall w1 w2 w3, R w1 w2 -> R w2 w3 -> R w1 w3)
    by (intros ? ? ? H1 H2 H; apply H2, H1, H).
  assert (Hlog : forall line, preserves R (consoleLog line))
    by (intros line w0 H; exact H).
  assert (Hup : forall c d, preserves R (Session_findOneAndUpdate f now c d)).
  { intros c d. apply preserves_storeCall; [exact Rr|].
    intros w0 H. now apply upsert_unique. }
  assert (Hdel : forall c, preserves R (Session_deleteOne f c)).
  { intros c. apply preserves_storeCall; [exact Rr|].
    intros w0 H. now apply deleteFirst_unique. }
  assert (Hread : forall A op (read : World -> A),
             preserves R (storeCall f op read (fun w => w)))
    by (intros; apply preserves_storeCall; auto).
  split.
  - revert w Hu. change (preserves R (verifyCode f now vreq)).
    unfold verifyCode.
    destruct (negb (JS.truthy (reqCode vreq)) || negb (JS.truthy (reqDeviceId vreq)));
      [now apply preserves_ret|].
    apply preserves_tryCatch; [exact Rt | |].
    + apply preserves_bind; [exact Rt | apply Hread |].
      intros [a|]; [|now apply preserves_ret].
      apply preserves_bind; [exact Rt | apply Hread |].
      intros s. destruct (deviceConflict s _); [now apply preserves_ret|].
      apply preserves_bind; [exact Rt | apply Hup | intros ?; now apply preserves_ret].
    + intros e. apply preserves_bind; [exact Rt | apply Hlog |].
      intros ?. now apply preserves_ret.
  - revert w Hu. change (preserves R (logout f lreq)).
    unfold logout. destruct (negb (JS.truthy (logoutCode lreq)));
      [now apply preserves_ret|].
    apply preserves_tryCatch; [exact Rt | |].
    + apply preserves_bind; [exact Rt | apply Hdel | intros ?; now apply preserves_ret].
    + intros e. apply preserves_bind; [exact Rt | apply Hlog |].
      intros ?. now apply preserves_ret.
Qed.

(** C10 (amended).  Whatever the outcome, failures of the store included,
    of a request whose [code] is a string or is missing: [verifyCode] and
    [logout] leave as it was every Session whose code is not the request's
    code as the store holds it (the request's code itself when that is a
    well-formed string), and neither they nor [chat] create, update or
    delete an access code; [chat] touches no Session either. *)
Theorem handlers_frame (f : Faults) (now : Z) (upstream : Upstream)
    (vreq : VerifyBody) (lreq : LogoutBody) (creq : ChatBody) (w : World) :
  (codes (snd (verifyCode f now vreq w)) = codes w
   /\ filter (otherThan (reqCode vreq)) (sessions (snd (verifyCode f now vreq w)))
      = filter (otherThan (reqCode vreq)) (sessions w))
  /\ (codes (snd (logout f lreq w)) = codes w
      /\ filter (otherThan (logoutCode lreq)) (sessions (snd (logout f lreq w)))
         = filter (otherThan (logoutCode lreq)) (sessions w))
  /\ (codes (snd (chat upstream creq w)) = codes w
      /\ sessions (snd (chat upstream creq w)) = sessions w)
  /\ (forall c s, JS.wellFormed c = true -> JS.wellFormed (sessionCode s) = true ->
        otherThan (Some c) s = negb (JS.eqb (sessionCode s) c)).
Proof.
  split; [apply verifyCode_frame|].
  split; [apply logout_frame|].
  split; [apply framed_None, chat_frame|].
  intros c s Hc Hs. unfold otherThan, hasCode, JS.sameStored.
  now rewrite !wellFormed_scrub.
Qed.

(** *** What one verification can do to the sessions *)

Lemma world_eta (w : World) :
  mkWorld (codes w) (sessions w) (console w) (sent w) = w.
Proof. now destruct w. Qed.

Lemma updateFirst_same (c d : jsstring) (l : list Session) (s : Session) :
  find (hasCode c) l = Some s -> deviceId s = d -> updateFirst c d l = Some l.
Proof.
  induction l as [|a l IH]; [discriminate|]. cbn [find updateFirst].
  destruct (hasCode c a) eqn:E.
  - intros H Hd. injection H as ->.
    rewrite (@setPath_same (sessionCode s) c E).
    rewrite setPath_same by (rewrite Hd; apply sameStored_refl).
    now rewrite session_eta.
  - intros H Hd. now rewrite (IH H Hd).
Qed.

Lemma upsert_no_conflict (now : Z) (c d : jsstring) (l : list Session) :
  deviceConflict (find (hasCode c) l) d = false ->
  (find (hasCode c) l <> None /\ upsert now c d l = l)
  \/ (find (hasCode c) l = None
      /\ upsert now c d l = l ++ [mkSession (JS.scrub c) (JS.scrub d) now]).
Proof.
  unfold upsert. destruct (find (hasCode c) l) as [s|] eqn:E; cbn [deviceConflict].
  - intros H. left. split; [discriminate|].
    apply negb_false_iff, eqb_eq in H. now rewrite (@updateFirst_same c d l s E H).
  - intros _. right. split; [reflexivity|]. now rewrite (@updateFirst_None c d l E).
Qed.

(** The runs of [verifyCode], by cases. *)
Lemma verifyCode_cases (f : Faults) (now : Z) (req : VerifyBody) (w : World) :
  (JS.truthy (reqCode req) && JS.truthy (reqDeviceId req) = false
   /\ verifyCode f now req w
      = (Returned (mkResponse 400 (errorBody "Code and deviceId required")), w))
  \/ (JS.truthy (reqCode req) && JS.truthy (reqDeviceId req) = true
      /\ ((fst (verifyCode f now req w)
           = Returned (mkResponse 500 (errorBody "Server error"))
           /\ sessions (snd (verifyCode f now req w)) = sessions w)
          \/ (find (fun a => JS.eqb (encryptedCode a) (encrypt (JS.str (reqCode req))))
                (codes w) = None
              /\ verifyCode f now req w
                 = (Returned (mkResponse 200 (JObj [(JS.lit "valid", JBool false)])), w))
          \/ (deviceConflict (find (hasCode (JS.str (reqCode req))) (sessions w))
                (JS.str (reqDeviceId req)) = true
              /\ verifyCode f now req w
                 = (Returned (mkResponse 403
                      (errorBody "This code is already in use on another device.")), w))
          \/ (find (fun a => JS.eqb (encryptedCode a) (encrypt (JS.str (reqCode req))))
                (codes w) <> None
              /\ deviceConflict (find (hasCode (JS.str (reqCode req))) (sessions w))
                   (JS.str (reqDeviceId req)) = false
              /\ sessions (snd (verifyCode f now req w))
                 = upsert now (JS.str (reqCode req)) (JS.str (reqDeviceId req))
                     (sessions w)
              /\ (fst (verifyCode f now req w)
                  = Returned (mkResponse 200 (JObj [(JS.lit "valid", JBool true)]))
                  \/ fst (verifyCode f now req w)
                     = Returned (mkResponse 500 (errorBody "Server error")))))).
Proof.
  destruct req as [rc rd]. cbn [reqCode reqDeviceId]. unfold verifyCode.
  cbn [reqCode reqDeviceId].
  destruct (JS.truthy rc); [|left; split; reflexivity].
  destruct (JS.truthy rd); [|left; split; reflexivity].
  right. split; [reflexivity|]. cbn [negb orb andb].
  set (c := JS.str rc). set (d := JS.str rd).
  unfold tryCatch, bind, Code_findOne, Session_findOne, Session_findOneAndUpdate,
    storeCall, ret, consoleLog, modify.
  destruct (f CodeFindOne); cbv beta iota; try (left; split; reflexivity).
  destruct (find _ (codes w)) as [a|] eqn:Ea; cbv beta iota;
    [|right; left; split; reflexivity].
  destruct (f SessionFindOne); cbv beta iota; try (left; split; reflexivity).
  destruct (deviceConflict (find (hasCode c) (sessions w)) d) eqn:Ec; cbv beta iota;
    [right; right; left; split; reflexivity|].
  destruct (f SessionFindOneAndUpdate); cbv beta iota.
  - right; right; right. repeat split; [discriminate | now left].
  - left. split; reflexivity.
  - right; right; right. repeat split; [discriminate | now right].
Qed.

Lemma truthy_some (x : option jsstring) :
  JS.truthy x = true -> exists c, x = Some c /\ c <> [] /\ JS.str x = c.
Proof.
  destruct x as [[|u c]|]; try discriminate. intros _.
  eexists. split; [reflexivity|]. split; [discriminate | reflexivity].
Qed.

Lemma find_code_known (w : World) (c : jsstring) :
  find (fun a => JS.eqb (encryptedCode a) (encrypt c)) (codes w) <> None ->
  knownCode w c.
Proof.
  destruct (find _ (codes w)) as [a|] eqn:E; [intros _ | congruence].
  apply find_some in E. destruct E as [Hin E]. apply eqb_eq in E. now exists a.
Qed.

(** The runs of [logout], by cases. *)
Lemma logout_cases (f : Faults) (req : LogoutBody) (w : World) :
  (JS.truthy (logoutCode req) = false
   /\ logout f req w = (Returned (mkResponse 400 (errorBody "Code required")), w))
  \/ (JS.truthy (logoutCode req) = true
      /\ ((fst (logout f req w)
           = Returned (mkResponse 200 (JObj [(JS.lit "success", JBool true)]))
           /\ snd (logout f req w)
              = setSessions (deleteFirst (JS.str (logoutCode req)) (sessions w)) w)
          \/ (fst (logout f req w)
              = Returned (mkResponse 500 (errorBody "Server error"))
              /\ (sessions (snd (logout f req w)) = sessions w
                  \/ sessions (snd (logout f req w))
                     = deleteFirst (JS.str (logoutCode req)) (sessions w))))).
Proof.
  destruct req as [rc]. cbn [logoutCode]. unfold logout. cbn [logoutCode].
  destruct (JS.truthy rc); [|left; split; reflexivity].
  right. split; [reflexivity|]. cbn [negb].
  unfold tryCatch, bind, Session_deleteOne, storeCall, ret, consoleLog, modify.
  destruct (f SessionDeleteOne); cbv beta iota.
  - left. split; reflexivity.
  - right. split; [reflexivity|]. now left.
  - right. split; [reflexivity|]. now right.
Qed.

(** X1.  Whatever the request and the failures of the store, one run of
    [verifyCode] changes no Session that exists and removes none: either the
    sessions are as they were, or one Session was added, for the request's
    code, which the Code Store knows and which had no Session, created at the
    time of the request; it holds the code and the deviceId of the request
    as the store writes them. *)
Theorem verifyCode_only_adds (f : Faults) (now : Z) (req : VerifyBody) (w : World) :
  sessions (snd (verifyCode f now req w)) = sessions w
  \/ (exists c d,
        reqCode req = Some c /\ reqDeviceId req = Some d
        /\ knownCode w c
        /\ find (hasCode c) (sessions w) = None
        /\ sessions (snd (verifyCode f now req w))
           = sessions w ++ [mkSession (JS.scrub c) (JS.scrub d) now]).
Proof.
  destruct (verifyCode_cases f now req w)
    as [[_ ->]|[T [[_ H]|[[_ ->]|[[_ ->]|(Hk & Hc & Hs & _)]]]]]; auto.
  apply andb_true_iff in T. destruct T as [Tc Td].
  destruct (truthy_some _ Tc) as (c & Ec & _ & Sc).
  destruct (truthy_some _ Td) as (d & Ed & _ & Sd).
  rewrite Sc, Sd in *.
  destruct (upsert_no_conflict now _ _ _ Hc) as [[_ Hu]|[Hn Hu]].
  - left. now rewrite Hs, Hu.
  - right. exists c, d. rewrite Hs, Hu. repeat split; auto.
    now apply find_code_known.
Qed.

(** The runs of [logoutNe], by cases. *)
Lemma logoutNe_cases (f : Faults) (pick : nat) (x : jsstring) (w : World) :
  (fst (logoutNe f pick x w)
   = Returned (mkResponse 200 (JObj [(JS.lit "success", JBool true)]))
   /\ snd (logoutNe f pick x w) = setSessions (deleteOneNot x pick (sessions w)) w)
  \/ (fst (logoutNe f pick x w) = Returned (mkResponse 500 (errorBody "Server error"))
      /\ codes (snd (logoutNe f pick x w)) = codes w
      /\ (sessions (snd (logoutNe f pick x w)) = sessions w
          \/ sessions (snd (logoutNe f pick x w)) = deleteOneNot x pick (sessions w))).
Proof.
  unfold logoutNe, tryCatch, bind, Session_deleteOneNe, storeCall, ret, consoleLog,
    modify.
  destruct (f SessionDeleteOne); cbv beta iota.
  - left. split; reflexivity.
  - right. split; [reflexivity|]. split; [reflexivity | now left].
  - right. split; [reflexivity|]. split; [reflexivity | now right].
Qed.

(** X2.  A request that has a body is answered, whatever the state and the
    failures of the store or of the completion endpoint: inside their [try]
    the handlers let no exception escape.  [verifyCode] has five responses
    and [logout] three, each a fixed status and body.  A [POST] whose
    [req.body] is [undefined] is not answered by its handler: the
    destructuring, which is outside the [try], throws, and nothing has
    changed. *)
Theorem handlers_always_answer (e : Env) (r : Request) (w : World) :
  match r with
  | GetPing =>
      handle e r w
      = (Returned (mkResponse 200 (JObj [(JS.lit "status", JStr (JS.lit "alive"))])), w)
  | PostVerifyCode _ =>
      exists resp, fst (handle e r w) = Returned resp
        /\ In resp
             [mkResponse 400 (errorBody "Code and deviceId required");
              mkResponse 200 (JObj [(JS.lit "valid", JBool false)]);
              mkResponse 403 (errorBody "This code is already in use on another device.");
              mkResponse 200 (JObj [(JS.lit "valid", JBool true)]);
              mkResponse 500 (errorBody "Server error")]
  | PostLogout _ | PostLogoutNe _ =>
      exists resp, fst (handle e r w) = Returned resp
        /\ In resp
             [mkResponse 400 (errorBody "Code required");
              mkResponse 200 (JObj [(JS.lit "success", JBool true)]);
              mkResponse 500 (errorBody "Server error")]
  | PostChat _ =>
      exists resp, fst (handle e r w) = Returned resp
        /\ (status resp = 200
            \/ resp = mkResponse 400 (errorBody "Messages required")
            \/ resp = mkResponse 500 (errorBody "Failed to generate response"))
  | PostNoBody _ => handle e r w = (Thrown TypeError, w)
  end.
Proof.
  destruct r as [|b|b|b|x|route]; cbn [handle]; try reflexivity.
  - destruct (verifyCode_cases (envFaults e) (envClock e) b w)
      as [[_ ->]|[_ [[-> _]|[[_ ->]|[[_ ->]|(_ & _ & _ & [-> | ->])]]]]];
      eexists; (split; [reflexivity|]); cbn [In]; tauto.
  - destruct (logout_cases (envFaults e) b w) as [[_ ->]|[_ [[-> _]|[-> _]]]];
      eexists; (split; [reflexivity|]); cbn [In]; tauto.
  - destruct b as [[msgs|]]; unfold_handlers; cbn [reqMessages];
      [destruct (envUpstream e (completionRequest msgs))|];
      eexists; (split; [reflexivity|]); cbn [status]; tauto.
  - destruct (logoutNe_cases (envFaults e) (envPick e) x w) as [[-> _]|[-> _]];
      eexists; (split; [reflexivity|]); cbn [In]; tauto.
Qed.

(** X3.  When the lookup of the access code throws, or the lookup of the
    session after it, a verification request with non-empty code and deviceId
    is answered with status 500 and the body [{error: 'Server error'}]; the
    error is written to the console, and the access codes and the sessions
    are as they were. *)
Theorem verifyCode_lookup_failure (f : Faults) (now : Z) (c d : jsstring) (w : World) :
  c <> [] -> d <> [] ->
  f CodeFindOne <> NoFault \/ (knownCode w c /\ f SessionFindOne <> NoFault) ->
  fst (verifyCode f now (mkVerifyBody (Some c) (Some d)) w)
  = Returned (mkResponse 500 (errorBody "Server error"))
  /\ codes (snd (verifyCode f now (mkVerifyBody (Some c) (Some d)) w)) = codes w
  /\ sessions (snd (verifyCode f now (mkVerifyBody (Some c) (Some d)) w)) = sessions w
  /\ sent (snd (verifyCode f now (mkVerifyBody (Some c) (Some d)) w)) = sent w
  /\ console (snd (verifyCode f now (mkVerifyBody (Some c) (Some d)) w))
     = console w
       ++ [[LText (JS.lit "Code validation error:");
            LExn (StoreError (match f CodeFindOne with
                              | NoFault => SessionFindOne
                              | _ => CodeFindOne
                              end))]].
Proof.
  intros Hc Hd Hf. apply truthy_nonempty in Hc, Hd.
  unfold verifyCode. cbn [reqCode reqDeviceId JS.str]. rewrite Hc, Hd.
  cbn [negb orb].
  unfold tryCatch, bind, Code_findOne, Session_findOne, storeCall, ret,
    consoleLog, modify.
  destruct (f CodeFindOne) eqn:E1; cbv beta iota; try (repeat split; fail).
  destruct Hf as [Hf|[Hk Hf]]; [congruence|].
  destruct (@knownCode_find w c Hk) as (a & ->). cbv beta iota.
  destruct (f SessionFindOne); cbv beta iota; [congruence| |]; repeat split.
Qed.

(** X4.  A re-login changes nothing at all: a verification request for a
    known code, from the device its Session is bound to, is answered
    [{valid: true}] and leaves the whole state as it was, the Session's
    creation timestamp included. *)
Theorem verifyCode_relogin_is_noop (now : Z) (c d : jsstring) (w : World)
    (s : Session) :
  c <> [] -> d <> [] -> knownCode w c ->
  find (hasCode c) (sessions w) = Some s -> deviceId s = d ->
  verifyCode healthy now (mkVerifyBody (Some c) (Some d)) w
  = (Returned (mkResponse 200 (JObj [(JS.lit "valid", JBool true)])), w).
Proof.
  intros Hc Hd Hk Hs Hdev.
  assert (Hconf : deviceConflict (find (hasCode c) (sessions w)) d = false).
  { rewrite Hs. cbn [deviceConflict]. rewrite Hdev, eqb_refl. reflexivity. }
  rewrite (@verifyCode_accept now c d w Hc Hd Hk Hconf).
  unfold upsert. rewrite (@updateFirst_same c d (sessions w) s Hs Hdev).
  unfold setSessions. now rewrite world_eta.
Qed.

(** *** Invariants of the state, and sequences of requests *)

Lemma knownCode_codes (w w' : World) (c : jsstring) :
  codes w' = codes w -> knownCode w c -> knownCode w' c.
Proof. unfold knownCode. now intros ->. Qed.

Lemma encrypt_scrub (c : jsstring) : encrypt (JS.scrub c) = encrypt c.
Proof. unfold encrypt. now rewrite utf8_scrub. Qed.

Lemma knownCode_scrub (w : World) (c : jsstring) :
  knownCode w c -> knownCode w (JS.scrub c).
Proof. unfold knownCode. now rewrite encrypt_scrub. Qed.

Lemma verifyCode_keeps_known (f : Faults) (now : Z) (req : VerifyBody) (w : World) :
  sessionsOfKnownCodes w -> sessionsOfKnownCodes (snd (verifyCode f now req w)).
Proof.
  intros Hk s Hin.
  destruct (verifyCode_frame f now req w) as [Hcodes _].
  apply (knownCode_codes _ Hcodes).
  destruct (verifyCode_cases f now req w)
    as [[_ E]|[T [[_ E]|[[_ E]|[[_ E]|(Hf & Hc & E & _)]]]]];
    try (rewrite E in Hin; now apply Hk).
  rewrite E in Hin.
  destruct (upsert_no_conflict now _ _ _ Hc) as [[_ Hu]|[_ Hu]];
    rewrite Hu in Hin; [now apply Hk|].
  apply in_app_or in Hin. destruct Hin as [Hin|[<-|[]]]; [now apply Hk|].
  cbn [sessionCode]. now apply knownCode_scrub, find_code_known.
Qed.

Lemma logout_sessions_incl (f : Faults) (req : LogoutBody) (w : World) :
  incl (sessions (snd (logout f req w))) (sessions w).
Proof.
  destruct (logout_cases f req w) as [[_ ->]|[_ [[_ ->]|[_ [->| ->]]]]];
    cbn [snd setSessions sessions];
    try apply incl_refl; apply deleteFirst_incl.
Qed.

Lemma logout_keeps_known (f : Faults) (req : LogoutBody) (w : World) :
  sessionsOfKnownCodes w -> sessionsOfKnownCodes (snd (logout f req w)).
Proof.
  intros Hk s Hin.
  destruct (logout_frame f req w) as [Hcodes _].
  apply (knownCode_codes _ Hcodes). apply Hk.
  now apply (logout_sessions_incl f req w).
Qed.

Lemma logoutNe_codes (f : Faults) (pick : nat) (x : jsstring) (w : World) :
  codes (snd (logoutNe f pick x w)) = codes w.
Proof. now destruct (logoutNe_cases f pick x w) as [[_ ->]|(_ & -> & _)]. Qed.

Lemma logoutNe_sessions (f : Faults) (pick : nat) (x : jsstring) (w : World) :
  sessions (snd (logoutNe f pick x w)) = sessions w
  \/ sessions (snd (logoutNe f pick x w)) = deleteOneNot x pick (sessions w).
Proof.
  destruct (logoutNe_cases f pick x w) as [[_ ->]|(_ & _ & H)]; [now right | exact H].
Qed.

Lemma logoutNe_sessions_incl (f : Faults) (pick : nat) (x : jsstring) (w : World) :
  incl (sessions (snd (logoutNe f pick x w))) (sessions w).
Proof.
  destruct (logoutNe_sessions f pick x w) as [-> | ->];
    [apply incl_refl | apply deleteNth_incl].
Qed.

Lemma handle_codes (e : Env) (r : Request) (w : World) :
  codes (snd (handle e r w)) = codes w.
Proof.
  destruct r as [|b|b|b|x|route]; cbn [handle].
  - reflexivity.
  - apply verifyCode_frame.
  - apply logout_frame.
  - apply chat_frame.
  - apply logoutNe_codes.
  - reflexivity.
Qed.

Lemma handle_keeps_unique (e : Env) (r : Request) (w : World) :
  uniqueSessions w -> uniqueSessions (snd (handle e r w)).
Proof.
  intros Hu. destruct r as [|b|b|b|x|route]; cbn [handle].
  - exact Hu.
  - exact (proj1 (@handlers_keep_unique (envFaults e) (envClock e) b
                    (mkLogoutBody None) w Hu)).
  - exact (proj2 (@handlers_keep_unique (envFaults e) 0 (mkVerifyBody None None)
                    b w Hu)).
  - unfold uniqueSessions.
    destruct (framed_None (chat_frame (envUpstream e) b w)) as [_ ->]. exact Hu.
  - unfold uniqueSessions.
    destruct (logoutNe_sessions (envFaults e) (envPick e) x w) as [-> | ->];
      [exact Hu | now apply deleteNth_unique].
  - exact Hu.
Qed.

Lemma handle_keeps_known (e : Env) (r : Request) (w : World) :
  sessionsOfKnownCodes w -> sessionsOfKnownCodes (snd (handle e r w)).
Proof.
  intros Hk. destruct r as [|b|b|b|x|route]; cbn [handle].
  - exact Hk.
  - now apply verifyCode_keeps_known.
  - now apply logout_keeps_known.
  - destruct (framed_None (chat_frame (envUpstream e) b w)) as [Hc Hs].
    intros s Hin. rewrite Hs in Hin. apply (knownCode_codes _ Hc). now apply Hk.
  - intros s Hin.
    apply (knownCode_codes _ (logoutNe_codes (envFaults e) (envPick e) x w)).
    apply Hk. now apply (logoutNe_sessions_incl (envFaults e) (envPick e) x w).
  - exact Hk.
Qed.

(** A pass of the TTL monitor removes sessions and does nothing else. *)
Lemma expire_codes (clock : Z) (reached : Session -> bool) (w : World) :
  codes (expire clock reached w) = codes w.
Proof. reflexivity. Qed.

Lemma expire_keeps_unique (clock : Z) (reached : Session -> bool) (w : World) :
  uniqueSessions w -> uniqueSessions (expire clock reached w).
Proof. unfold uniqueSessions, expire, setSessions. cbn [sessions]. apply filter_unique_keys. Qed.

Lemma expire_keeps_known (clock : Z) (reached : Session -> bool) (w : World) :
  sessionsOfKnownCodes w -> sessionsOfKnownCodes (expire clock reached w).
Proof.
  intros Hk s Hin. unfold expire, setSessions in Hin. cbn [sessions] in Hin.
  apply filter_In in Hin. destruct Hin as [Hin _]. exact (Hk s Hin).
Qed.

Lemma expire_keeps_session (clock : Z) (reached : Session -> bool) (w : World)
    (s : Session) :
  expired clock s = false -> In s (sessions w) ->
  In s (sessions (expire clock reached w)).
Proof.
  intros He Hin. unfold expire, setSessions. cbn [sessions].
  apply filter_In. split; [exact Hin|]. now rewrite He.
Qed.

Lemma inTime_not_expired (s : Session) (e : Env) :
  inTime s e = true -> expired (envClock e) s = false.
Proof.
  unfold inTime, expired. intros H. apply Z.ltb_lt in H. apply Z.leb_gt. exact H.
Qed.

Lemma serve_invariants (rs : list (Env * Request)) (w : World) :
  uniqueSessions w -> sessionsOfKnownCodes w ->
  codes (serve rs w) = codes w
  /\ uniqueSessions (serve rs w)
  /\ sessionsOfKnownCodes (serve rs w).
Proof.
  revert w. induction rs as [|[e r] rs IH]; intros w Hu Hk; cbn [serve].
  - auto.
  - destruct (IH (snd (handle e r (arrive e w)))
                 (handle_keeps_unique e r (expire_keeps_unique _ _ Hu))
                 (handle_keeps_known e r (expire_keeps_known _ _ Hk)))
      as (Hc & Hu' & Hk').
    rewrite Hc, handle_codes. auto.
Qed.

Lemma verifyCode_only_adds_aux (f : Faults) (now : Z) (req : VerifyBody) (w : World) :
  sessions (snd (verifyCode f now req w)) = sessions w
  \/ (exists x, sessions (snd (verifyCode f now req w)) = sessions w ++ [x]).
Proof.
  destruct (verifyCode_cases f now req w)
    as [[_ ->]|[T [[_ H]|[[_ ->]|[[_ ->]|(Hk & Hc & Hs & _)]]]]]; auto.
  destruct (upsert_no_conflict now _ _ _ Hc) as [[_ Hu]|[Hn Hu]];
    rewrite Hs, Hu; [now left | right; now eexists].
Qed.

(** X5.  Over any sequence of requests handled one after the other, whatever
    the failures of the store: the access codes never change, no two sessions
    ever share a code, and every session is the session of a code that the
    Code Store knows. *)
Theorem serve_keeps_invariants (rs : list (Env * Request)) (w : World) :
  uniqueSessions w -> sessionsOfKnownCodes w ->
  codes (serve rs w) = codes w
  /\ uniqueSessions (serve rs w)
  /\ sessionsOfKnownCodes (serve rs w).
Proof. apply serve_invariants. Qed.

Lemma sameStored_sym (a b : jsstring) : JS.sameStored a b = JS.sameStored b a.
Proof.
  destruct (JS.sameStored b a) eqn:E.
  - apply sameStored_true in E. now apply sameStored_true.
  - apply sameStored_false in E. apply sameStored_false. congruence.
Qed.

Lemma deleteFirst_keeps_others (c : jsstring) (l : list Session) (s : Session) :
  In s l -> hasCode c s = false -> In s (deleteFirst c l).
Proof.
  induction l as [|a l IH]; [intros []|]. cbn [deleteFirst].
  intros [->|Hin] Hne.
  - rewrite Hne. now left.
  - destruct (hasCode c a); [exact Hin | right; now apply IH].
Qed.

Lemma deleteNth_keeps_others (p : Session -> bool) (l : list Session) (s : Session) :
  forall n, In s l -> p s = false -> In s (deleteNth p n l).
Proof.
  induction l as [|a l IH]; intros n; [intros []|]. cbn [deleteNth].
  intros [->|Hin] Hx.
  - rewrite Hx. now left.
  - destruct (p a); [destruct n as [|n]|]; [exact Hin | |]; right; now apply IH.
Qed.

Lemma handle_keeps_session (e : Env) (r : Request) (w : World) (s : Session) :
  logsOut (sessionCode s) r = false ->
  In s (sessions w) -> In s (sessions (snd (handle e r w))).
Proof.
  intros Hl Hin. destruct r as [|b|b|b|x|route]; cbn [handle].
  - exact Hin.
  - destruct (verifyCode_only_adds_aux (envFaults e) (envClock e) b w) as [->|[x ->]];
      [exact Hin | apply in_or_app; now left].
  - cbn [logsOut] in Hl.
    destruct (logout_cases (envFaults e) b w) as [[_ ->]|[T [[_ ->]|[_ [->| ->]]]]];
      cbn [snd setSessions sessions]; try exact Hin;
      rewrite T in Hl; cbn [andb] in Hl; rewrite sameStored_sym in Hl;
      apply deleteFirst_keeps_others; auto.
  - now destruct (framed_None (chat_frame (envUpstream e) b w)) as [_ ->].
  - cbn [logsOut] in Hl. apply negb_false_iff in Hl. rewrite sameStored_sym in Hl.
    destruct (logoutNe_sessions (envFaults e) (envPick e) x w) as [-> | ->];
      [exact Hin|].
    apply deleteNth_keeps_others; [exact Hin|]. unfold hasCode. now rewrite Hl.
  - exact Hin.
Qed.

Lemma serve_keeps_session (rs : list (Env * Request)) (w : World)
    (s : Session) :
  forallb (fun er => negb (logsOut (sessionCode s) (snd er)) && inTime s (fst er)) rs
  = true ->
  In s (sessions w) -> In s (sessions (serve rs w)).
Proof.
  revert w. induction rs as [|[e r] rs IH]; intros w Hl Hin; cbn [serve].
  - exact Hin.
  - cbn [forallb fst snd] in Hl. apply andb_true_iff in Hl. destruct Hl as [Hr Hl].
    apply andb_true_iff in Hr. destruct Hr as [Hr Ht].
    apply negb_true_iff in Hr. apply IH; [exact Hl|].
    apply handle_keeps_session; [exact Hr|].
    apply expire_keeps_session; [now apply inTime_not_expired | exact Hin].
Qed.

(** X6.  A code stays bound until it is logged out or its Session is due:
    over any sequence of requests handled one after the other, of which none
    is a logout whose filter matches the code and all arrive less than seven
    days after the Session was created, whatever the devices that ask, the
    failures of the store and the passes of the TTL monitor, the Session of
    the code is still there, with the same deviceId and the same creation
    timestamp. *)
Theorem binding_persists_without_logout (rs : list (Env * Request)) (w : World)
    (s : Session) :
  forallb (fun er => negb (logsOut (sessionCode s) (snd er)) && inTime s (fst er)) rs
  = true ->
  In s (sessions w) -> In s (sessions (serve rs w)).
Proof. apply serve_keeps_session. Qed.

(** X7.  Logout of a non-empty code that has no Session answers
    [{success: true}] and leaves the whole state as it was. *)
Theorem logout_without_session_is_noop (c : jsstring) (w : World) :
  c <> [] -> find (hasCode c) (sessions w) = None ->
  logout healthy (mkLogoutBody (Some c)) w
  = (Returned (mkResponse 200 (JObj [(JS.lit "success", JBool true)])), w).
Proof.
  intros Hc Hn. rewrite (@logout_accept c w Hc). f_equal.
  assert (Hd : deleteFirst c (sessions w) = sessions w).
  { revert Hn. induction (sessions w) as [|a l IH]; [reflexivity|].
    cbn [find deleteFirst]. destruct (hasCode c a); [discriminate|].
    intros H. now rewrite (IH H). }
  unfold setSessions. rewrite Hd. apply world_eta.
Qed.

(** *** Seeding, whatever the random source *)

Lemma insertOrdered_prefix (now : Z) (docs : list (jsstring * jsstring)) :
  forall coll,
  exists k,
    k <= length docs
    /\ fst (insertOrdered now docs coll)
       = coll ++ map (fun d => mkAccessCode (fst d) (snd d) now) (firstn k docs)
    /\ (forall c, In c (map fst (firstn k docs)) -> ~ In c (map code coll))
    /\ NoDup (map fst (firstn k docs))
    /\ ((k = length docs /\ snd (insertOrdered now docs coll) = None)
        \/ (exists d, nth_error docs k = Some d
              /\ snd (insertOrdered now docs coll) = Some (DuplicateKey (fst d))
              /\ In (fst d) (map code coll ++ map fst (firstn k docs)))).
Proof.
  induction docs as [|[c e] docs IH]; intros coll.
  - exists 0. cbn [insertOrdered firstn map length fst snd].
    rewrite app_nil_r.
    split; [lia|]. split; [reflexivity|]. split; [intros ? []|].
    split; [constructor|]. left. now split.
  - cbn [insertOrdered]. destruct (existsb _ coll) eqn:E.
    + exists 0. cbn [firstn map length fst snd nth_error]. rewrite !app_nil_r.
      split; [lia|]. split; [reflexivity|]. split; [intros ? []|].
      split; [constructor|].
      right. exists (c, e). split; [reflexivity|]. split; [reflexivity|].
      apply existsb_exists in E. destruct E as (a & Ha & E). apply eqb_eq in E.
      cbn [fst]. rewrite <- E. now apply in_map.
    + destruct (IH (coll ++ [mkAccessCode c e now])) as (k & Hk & Hf & Hn & Hd & Hr).
      assert (Hc : ~ In c (map code coll)).
      { intros Hin. apply in_map_iff in Hin. destruct Hin as (a & Ha & Hin).
        assert (Et : existsb (fun a => JS.eqb (code a) c) coll = true).
        { apply existsb_exists. exists a. split; [exact Hin | now apply eqb_eq]. }
        congruence. }
      exists (S k). cbn [firstn map length fst snd nth_error].
      split; [lia|]. split; [now rewrite Hf, <- app_assoc|].
      split; [|split].
      * intros x [<-|Hx]; [exact Hc|].
        intros Hin. apply (Hn x Hx). rewrite map_app. apply in_or_app. now left.
      * constructor; [|exact Hd].
        intros Hin. apply (Hn c Hin). rewrite map_app. apply in_or_app.
        right. now left.
      * destruct Hr as [[-> Hs]|(d & Hnth & Hs & Hin)]; [left; now split|].
        right. exists d. split; [exact Hnth|]. split; [exact Hs|].
        rewrite map_app in Hin. cbn [map code] in Hin.
        rewrite <- app_assoc in Hin. exact Hin.
Qed.

Lemma in_firstn {A} (k : nat) (l : list A) (x : A) : In x (firstn k l) -> In x l.
Proof.
  intros H. rewrite <- (firstn_skipn k l). apply in_or_app. now left.
Qed.

Lemma generatedCodes_length (rnd : Entropy) : length (generatedCodes rnd) = 10.
Proof. unfold generatedCodes. now rewrite length_map, length_seq. Qed.

Lemma generatedCodes_in (rnd : Entropy) (c : jsstring) :
  In c (generatedCodes rnd) ->
  exists pos, c = fst (generateRandomCode rnd pos).
Proof.
  unfold generatedCodes. intros H. apply in_map_iff in H.
  destruct H as (k & <- & _). now eexists.
Qed.

(** *** Ciphertexts of ASCII codes *)

Lemma utf8_cons_nonempty (u : N) (x : jsstring) : Bytes.utf8 (u :: x) <> [].
Proof.
  cbn [Bytes.utf8]. unfold Bytes.replacement.
  destruct (u <? 128)%N; [discriminate|]. destruct (u <? 2048)%N; [discriminate|].
  destruct (JS.isHighSurrogate u).
  - destruct x as [|l x]; [discriminate|]. destruct (JS.isLowSurrogate l); discriminate.
  - destruct (JS.isLowSurrogate u); discriminate.
Qed.

Lemma replacement_not_ascii (v : N) (t t' : list byte) :
  (v < 128)%N -> Bytes.replacement ++ t' <> Bytes.ofN v :: t.
Proof.
  intros Hv H. unfold Bytes.replacement in H. cbn [app] in H.
  apply cons_eq in H. destruct H as [H _].
  apply (f_equal Byte.to_N) in H. rewrite to_N_ofN in H by lia.
  cbn in H. lia.
Qed.

Lemma lead_not_ascii (n v : N) (t t' : list byte) :
  (128 <= n < 256)%N -> (v < 128)%N -> Bytes.ofN n :: t' <> Bytes.ofN v :: t.
Proof.
  intros Hn Hv H. apply cons_eq in H. destruct H as [H _].
  apply ofN_inj in H; lia.
Qed.

Lemma utf8_head_ascii (u : N) (x : jsstring) (v : N) (t : list byte) :
  (u < 65536)%N -> (v < 128)%N -> Bytes.utf8 (u :: x) = Bytes.ofN v :: t ->
  u = v /\ Bytes.utf8 x = t.
Proof.
  intros Hu Hv. cbn [Bytes.utf8].
  destruct (N.ltb_spec u 128).
  - intros E. apply cons_eq in E. destruct E as [E Ht].
    apply ofN_inj in E; [auto | lia | lia].
  - destruct (N.ltb_spec u 2048).
    + intros E. exfalso. revert E. apply lead_not_ascii; [|exact Hv].
      pose proof (@lead2_lt u ltac:(lia)). atomize. lia.
    + destruct (JS.isHighSurrogate u) eqn:Hh.
      * apply surrogate_range in Hh. destruct x as [|l x].
        { intros E. exfalso. revert E.
          rewrite <- (app_nil_r Bytes.replacement). now apply replacement_not_ascii. }
        destruct (JS.isLowSurrogate l) eqn:Hl.
        { apply low_surrogate_range in Hl.
          intros E. exfalso. revert E. apply lead_not_ascii; [|exact Hv].
          pose proof (@lead4_lt (65536 + (u - 55296) * 1024 + (l - 56320))%N
                        ltac:(lia)). atomize. lia. }
        intros E. exfalso. revert E. now apply replacement_not_ascii.
      * destruct (JS.isLowSurrogate u).
        { intros E. exfalso. revert E. now apply replacement_not_ascii. }
        intros E. exfalso. revert E. apply lead_not_ascii; [|exact Hv].
        pose proof (@lead3_lt u ltac:(lia)). atomize. lia.
Qed.

Lemma utf8_eq_ascii (a x : jsstring) :
  JS.isAscii a -> sixteenBit x -> Bytes.utf8 x = Bytes.utf8 a -> x = a.
Proof.
  intros Ha. revert x. induction Ha as [|v a Hv Ha IH]; intros x Hx H.
  - destruct x as [|u x]; [reflexivity|].
    exfalso. now apply (utf8_cons_nonempty u x).
  - cbn [Bytes.utf8] in H. destruct (N.ltb_spec v 128); [|lia].
    destruct x as [|u x]; [discriminate|].
    inversion Hx as [|? ? Hu Hx']; subst.
    destruct (utf8_head_ascii x Hu Hv H) as [-> Ht].
    f_equal. now apply IH.
Qed.

Lemma hex_length (bs : list byte) : length (Bytes.hex bs) = 2 * length bs.
Proof.
  induction bs as [|b bs IH]; [reflexivity|].
  unfold Bytes.hex in *. cbn [flat_map Bytes.hexByte app length]. lia.
Qed.

Lemma hexDigit_digit (n : N) :
  (n < 16)%N -> In (Bytes.hexDigit n) (JS.lit "0123456789abcdef").
Proof.
  intros Hn. rewrite <- (N2Nat.id n).
  assert (Hk : N.to_nat n < 16) by lia.
  revert Hk. generalize (N.to_nat n). clear. intros k Hk.
  do 16 (destruct k as [|k]; [vm_compute; tauto|]). lia.
Qed.

Lemma hex_digits (bs : list byte) :
  Forall (fun u => In u (JS.lit "0123456789abcdef")) (Bytes.hex bs).
Proof.
  induction bs as [|b bs IH]; [constructor|].
  unfold Bytes.hex in *. cbn [flat_map Bytes.hexByte app].
  pose proof (to_N_lt_256 b).
  constructor; [|constructor; [|exact IH]].
  - apply hexDigit_digit. apply N.Div0.div_lt_upper_bound. lia.
  - apply hexDigit_digit. apply N.mod_lt. lia.
Qed.

Section CipherConsequences.

Hypothesis iv_length : length iv = blockSize.
Hypothesis aes256_length :
  forall b, length b = blockSize -> length (aes256 key b) = blockSize.
Hypothesis aes256_inj :
  forall a b, length a = blockSize -> length b = blockSize ->
    aes256 key a = aes256 key b -> a = b.

Lemma seed_docs_valid (rnd : Entropy) :
  forallb validCodeDoc (map (fun c => (c, encrypt c)) (generatedCodes rnd)) = true.
Proof.
  apply forallb_forall. intros d Hd. apply in_map_iff in Hd.
  destruct Hd as (c & <- & Hc). apply generatedCodes_in in Hc. destruct Hc as (pos & ->).
  unfold validCodeDoc. cbn [fst snd]. apply andb_true_iff. split.
  - apply truthy_nonempty, generateRandomCode_nonempty.
  - apply truthy_nonempty, (encrypt_nonempty iv_length aes256_length).
Qed.

Lemma seedCodes_on_empty (rnd : Entropy) (now : Z) (w : World) :
  codes w = [] ->
  exists k,
    1 <= k <= 10
    /\ codes (snd (seedCodes rnd now w))
       = map (fun c => mkAccessCode c (encrypt c) now) (firstn k (generatedCodes rnd))
    /\ sessions (snd (seedCodes rnd now w)) = sessions w
    /\ NoDup (firstn k (generatedCodes rnd))
    /\ ((k = 10 /\ fst (seedCodes rnd now w) = Returned tt)
        \/ (exists c, nth_error (generatedCodes rnd) k = Some c
              /\ In c (firstn k (generatedCodes rnd))
              /\ fst (seedCodes rnd now w) = Thrown (DuplicateKey c))).
Proof.
  intros Hempty. unfold seedCodes. rewrite Hempty. cbn [length Nat.eqb].
  unfold bind, Code_insertMany, consoleLog, modify, setCodes.
  cbn [codes sessions console sent].
  rewrite (seedCodes_loop_generated iv_length), seed_docs_valid.
  set (docs := map (fun c => (c, encrypt c)) (generatedCodes rnd)).
  destruct (insertOrdered_prefix now docs []) as (k & Hk & Hf & _ & Hd & Hr).
  assert (Hfst : map fst (firstn k docs) = firstn k (generatedCodes rnd)).
  { unfold docs. rewrite firstn_map, map_map. cbn [fst]. apply map_id. }
  assert (Hmk : map (fun d => mkAccessCode (fst d) (snd d) now) (firstn k docs)
                = map (fun c => mkAccessCode c (encrypt c) now)
                    (firstn k (generatedCodes rnd))).
  { unfold docs. rewrite firstn_map, map_map. reflexivity. }
  assert (Hlen : length docs = 10)
    by (unfold docs; now rewrite length_map, generatedCodes_length).
  rewrite Hfst in *. cbn [app map] in Hf, Hr. rewrite Hmk in Hf.
  assert (H1 : 1 <= k).
  { destruct k as [|k]; [|lia]. exfalso.
    destruct Hr as [[Hk0 _]|(d & _ & _ & [])]. lia. }
  exists k. split; [lia|].
  destruct (insertOrdered now docs []) as [coll [e|]]; cbn [fst snd] in *; subst coll.
  - split; [reflexivity|]. split; [reflexivity|]. split; [exact Hd|].
    destruct Hr as [[_ Hs]|(d & Hn & Hs & Hin)]; [discriminate|].
    right. exists (fst d). injection Hs as ->.
    split; [|split; [exact Hin | reflexivity]].
    unfold docs in Hn. rewrite nth_error_map in Hn.
    destruct (nth_error (generatedCodes rnd) k); [|discriminate].
    injection Hn as <-. reflexivity.
  - split; [reflexivity|]. split; [reflexivity|]. split; [exact Hd|].
    destruct Hr as [[-> _]|(d & _ & Hs & _)]; [|discriminate].
    left. split; [exact Hlen | reflexivity].
Qed.

(** X8.  Seeding an empty Code Store, whatever the random bytes: the store
    is left with the first [k] generated codes, [1 <= k <= 10], each with its
    ciphertext, where [k] is where the first repeated code stands; the codes
    stored are pairwise distinct.  With ten distinct codes seeding returns;
    otherwise it stops at the first repeated code with a duplicate-key error
    and the codes after it are not stored. *)
Theorem seedCodes_stops_at_first_repeat (rnd : Entropy) (now : Z) (w : World) :
  codes w = [] ->
  exists k,
    1 <= k <= 10
    /\ codes (snd (seedCodes rnd now w))
       = map (fun c => mkAccessCode c (encrypt c) now) (firstn k (generatedCodes rnd))
    /\ sessions (snd (seedCodes rnd now w)) = sessions w
    /\ NoDup (firstn k (generatedCodes rnd))
    /\ ((k = 10 /\ fst (seedCodes rnd now w) = Returned tt)
        \/ (exists c, nth_error (generatedCodes rnd) k = Some c
              /\ In c (firstn k (generatedCodes rnd))
              /\ fst (seedCodes rnd now w) = Thrown (DuplicateKey c))).
Proof. apply seedCodes_on_empty. Qed.

Lemma seedCodes_skips (rnd : Entropy) (now : Z) (w : World) :
  codes w <> [] -> codes (snd (seedCodes rnd now w)) = codes w.
Proof.
  intros Hne. unfold seedCodes.
  destruct (codes w) as [|a l] eqn:E; [congruence|].
  cbn [length Nat.eqb]. unfold consoleLog, modify. cbn [snd codes]. exact E.
Qed.

(** X9.  Once [seedCodes] has run, the Code Store is not empty and every
    later run of [seedCodes] leaves the access codes as they are: a seeding
    that stopped at a repeated code is not completed by running it again. *)
Theorem seedCodes_runs_once (rnd rnd' : Entropy) (now now' : Z) (w : World) :
  codes (snd (seedCodes rnd now w)) <> []
  /\ codes (snd (seedCodes rnd' now' (snd (seedCodes rnd now w))))
     = codes (snd (seedCodes rnd now w)).
Proof.
  assert (Hne : codes (snd (seedCodes rnd now w)) <> []).
  { destruct (codes w) as [|a l] eqn:E.
    - destruct (seedCodes_on_empty rnd now w E) as (k & Hk & -> & _).
      pose proof (generatedCodes_length rnd) as Hl.
      destruct (generatedCodes rnd) as [|c g]; [discriminate|].
      destruct k as [|k]; [lia|]. discriminate.
    - rewrite seedCodes_skips; rewrite E; discriminate. }
  split; [exact Hne | now apply seedCodes_skips].
Qed.

(** X10.  Every access code that seeding an empty store wrote is accepted:
    on a store that answers, a verification request with that code and a
    non-empty deviceId, when no Session binds the code to another device, is
    answered [{valid: true}]. *)
Theorem seeded_code_is_accepted (rnd : Entropy) (now now' : Z) (w : World)
    (a : AccessCode) (d : jsstring) :
  codes w = [] -> In a (codes (snd (seedCodes rnd now w))) -> d <> [] ->
  (forall s, In s (sessions w) -> sessionCode s = code a -> deviceId s = d) ->
  fst (verifyCode healthy now' (mkVerifyBody (Some (code a)) (Some d))
         (snd (seedCodes rnd now w)))
  = Returned (mkResponse 200 (JObj [(JS.lit "valid", JBool true)])).
Proof.
  intros Hempty Hin Hd Hsame.
  destruct (seedCodes_on_empty rnd now w Hempty) as (k & _ & Hc & Hs & _).
  assert (Ha : code a <> [] /\ encryptedCode a = encrypt (code a)
               /\ JS.isAscii (code a)).
  { rewrite Hc in Hin. apply in_map_iff in Hin. destruct Hin as (c & <- & Hin).
    apply in_firstn, generatedCodes_in in Hin. destruct Hin as (pos & ->).
    cbn [code encryptedCode].
    split; [apply generateRandomCode_nonempty|].
    split; [reflexivity | apply generateRandomCode_ascii]. }
  destruct Ha as (Hne & He & Hascii).
  rewrite (@verifyCode_accept now' (code a) d _ Hne Hd).
  - reflexivity.
  - exists a. now split.
  - rewrite Hs. apply same_device_no_conflict. intros s Hin' Hm.
    apply Hsame; [exact Hin'|]. apply hasCode_true in Hm.
    rewrite (@scrub_ascii (code a)) in Hm by exact Hascii.
    now apply scrub_eq_ascii.
Qed.

(** X11.  No false accept: on a Code Store as seeding writes it (ASCII codes,
    each stored with its own ciphertext), whatever the failures of the store,
    a verification request is answered [{valid: true}] only when its code is,
    character for character, the plaintext code of a stored access code. *)
Theorem verifyCode_accepts_only_stored_codes (f : Faults) (now : Z)
    (c : jsstring) (rd : option jsstring) (w : World) :
  seededStore w -> sixteenBit c ->
  fst (verifyCode f now (mkVerifyBody (Some c) rd) w)
  = Returned (mkResponse 200 (JObj [(JS.lit "valid", JBool true)])) ->
  exists a, In a (codes w) /\ code a = c.
Proof.
  intros Hs Hc H.
  destruct (verifyCode_cases f now (mkVerifyBody (Some c) rd) w)
    as [[_ E]|[_ [[E _]|[[_ E]|[[_ E]|(Hk & _)]]]]];
    try (rewrite E in H; discriminate H).
  cbn [reqCode JS.str] in Hk.
  destruct (find _ (codes w)) as [a|] eqn:Ea; [|congruence].
  apply find_some in Ea. destruct Ea as [Hin Ea]. apply eqb_eq in Ea.
  destruct (Hs a Hin) as (Hascii & _ & He).
  exists a. split; [exact Hin|]. symmetry.
  apply utf8_eq_ascii; [exact Hascii | exact Hc|].
  apply (encrypt_inj_utf8 iv_length aes256_length aes256_inj). congruence.
Qed.

(** X12.  A ciphertext is a string of lower-case hexadecimal digits, 32 for
    each 16 bytes of the UTF-8 plaintext and 32 more for the padding: its
    length tells the length of the plaintext up to 16 bytes, and the
    ciphertext of a 12-character generated code has 32 characters. *)
Theorem encrypt_output_shape (text : jsstring) :
  length (encrypt text) = 32 * (length (Bytes.utf8 text) / 16 + 1)
  /\ Forall (fun u => In u (JS.lit "0123456789abcdef")) (encrypt text)
  /\ (forall rnd pos, length (encrypt (fst (generateRandomCode rnd pos))) = 32).
Proof.
  split; [|split].
  - rewrite (encrypt_length iv_length aes256_length). unfold blockSize. lia.
  - rewrite (encrypt_cbc iv_length). apply hex_digits.
  - intros rnd pos. rewrite (encrypt_length iv_length aes256_length).
    rewrite (utf8_ascii (generateRandomCode_ascii rnd pos)), length_map.
    destruct (generateRandomCode_spec rnd pos) as (_ & -> & _). reflexivity.
Qed.

Lemma encrypt_leading_blocks (k : nat) (text : jsstring) :
  blockSize * k <= length (Bytes.utf8 text) ->
  firstn (2 * (blockSize * k)) (encrypt text)
  = Bytes.hex (fst (encryptBlocks k iv (firstn (blockSize * k) (Bytes.utf8 text)))).
Proof.
  intros Hk. rewrite (encrypt_cbc iv_length).
  set (m := Bytes.utf8 text) in *. set (n := length m / blockSize).
  assert (Hkn : k <= n).
  { unfold n. apply Nat.div_le_lower_bound; [discriminate | exact Hk]. }
  replace (n + 1) with (k + (n + 1 - k)) by lia.
  rewrite (encryptBlocks_split iv_length). cbn [fst]. rewrite hex_app.
  assert (Hp : encryptBlocks k iv (pkcs7 m)
               = encryptBlocks k iv (firstn (blockSize * k) m)).
  { unfold pkcs7. cbv zeta.
    rewrite <- (firstn_skipn (blockSize * k) m) at 1. rewrite <- app_assoc.
    apply (encryptBlocks_prefix iv_length). rewrite length_firstn. lia. }
  rewrite Hp.
  set (A := fst (encryptBlocks k iv (firstn (blockSize * k) m))).
  assert (HA : length A = blockSize * k).
  { apply (encryptBlocks_length iv_length aes256_length); [exact iv_length|].
    rewrite length_firstn. lia. }
  rewrite <- HA, <- hex_length, firstn_app, Nat.sub_diag, firstn_all.
  cbn [firstn]. apply app_nil_r.
Qed.

(** X13.  The cipher keeps common prefixes: two plaintexts whose UTF-8
    encodings agree on their first [16 k] bytes have ciphertexts that agree
    on their first [32 k] characters. *)
Theorem encrypt_keeps_common_prefix (k : nat) (x y : jsstring) :
  16 * k <= length (Bytes.utf8 x) -> 16 * k <= length (Bytes.utf8 y) ->
  firstn (16 * k) (Bytes.utf8 x) = firstn (16 * k) (Bytes.utf8 y) ->
  firstn (32 * k) (encrypt x) = firstn (32 * k) (encrypt y).
Proof.
  intros Hx Hy H.
  replace (32 * k) with (2 * (blockSize * k)) by (unfold blockSize; lia).
  rewrite !encrypt_leading_blocks by exact Hx || exact Hy.
  change (blockSize * k) with (16 * k). now rewrite H.
Qed.

End CipherConsequences.

(** *** The random code generator: collisions and bias *)

Lemma characters_distinct : NoDup characters.
Proof.
  assert (E : nodup N.eq_dec characters = characters) by reflexivity.
  rewrite <- E. apply NoDup_nodup.
Qed.

Lemma map_inj_on {A B} (g : A -> B) (l l' : list A) :
  (forall x y, In x l -> In y l' -> g x = g y -> x = y) ->
  map g l = map g l' -> l = l'.
Proof.
  revert l'. induction l as [|a l IH]; intros [|b l'] Hinj H; try discriminate; auto.
  cbn [map] in H. apply cons_eq in H. destruct H as [Hab H].
  f_equal.
  - apply Hinj; [now left | now left | exact Hab].
  - apply IH; [|exact H]. intros x y Hx Hy. apply Hinj; now right.
Qed.

(** X14.  Two generated codes are equal exactly when their twelve random
    bytes agree modulo 72, position by position: the alphabet has no repeated
    character, and bytes that differ by a multiple of 72 select the same
    character. *)
Theorem generateRandomCode_equal_iff (rnd rnd' : Entropy) (pos pos' : nat) :
  fst (generateRandomCode rnd pos) = fst (generateRandomCode rnd' pos')
  <-> map (fun b => N.to_nat (Byte.to_N b) mod 72) (randomBytes rnd pos 12)
      = map (fun b => N.to_nat (Byte.to_N b) mod 72) (randomBytes rnd' pos' 12).
Proof.
  destruct (generateRandomCode_spec rnd pos) as (-> & _).
  destruct (generateRandomCode_spec rnd' pos') as (-> & _).
  rewrite <- !(map_map (fun b => N.to_nat (Byte.to_N b) mod 72)
                 (fun i => nth i characters 0%N)).
  split; [|now intros ->].
  apply map_inj_on. intros i j Hi Hj.
  apply in_map_iff in Hi. destruct Hi as (b & <- & _).
  apply in_map_iff in Hj. destruct Hj as (b' & <- & _).
  apply (proj1 (NoDup_nth characters 0%N) characters_distinct);
    rewrite characters_length; apply Nat.mod_upper_bound; discriminate.
Qed.

(** X15.  The generator is biased: of the 256 values of a random byte, four
    select each of the first 40 characters of the alphabet (A-Z, a-n) and
    three select each of the other 32. *)
Theorem generateRandomCode_modulo_bias :
  map (fun i => length (filter (fun n => charIndex [Bytes.ofN (N.of_nat n)] 0 =? i)
                          (seq 0 256)))
      (seq 0 (length characters))
  = repeat 4 40 ++ repeat 3 32.
Proof. vm_compute. reflexivity. Qed.

(** *** What the answers of a verification mean *)

(** X16.  A device stays locked out until the code is logged out or its
    Session is due: when a code is bound to a device and the requests that
    follow, handled one after the other, contain no logout whose filter
    matches the code, a verification of the code from any other device that
    arrives, as all of them do, less than seven days after the Session was
    created is, on a store that answers, refused with status 403 and changes
    nothing, whatever the TTL monitor has done. *)
Theorem other_device_stays_refused (rs : list (Env * Request)) (now : Z)
    (upstream : Upstream) (monitor : Session -> bool) (pick : nat)
    (w : World) (s : Session) (d : jsstring) :
  uniqueSessions w -> sessionsOfKnownCodes w ->
  In s (sessions w) -> sessionCode s <> [] ->
  forallb (fun er => negb (logsOut (sessionCode s) (snd er)) && inTime s (fst er)) rs
  = true ->
  (now < createdAt s + sessionTtl)%Z ->
  d <> [] -> d <> deviceId s ->
  handle (mkEnv healthy now upstream monitor pick)
    (PostVerifyCode (mkVerifyBody (Some (sessionCode s)) (Some d)))
    (arrive (mkEnv healthy now upstream monitor pick) (serve rs w))
  = (Returned (mkResponse 403
                 (errorBody "This code is already in use on another device.")),
     arrive (mkEnv healthy now upstream monitor pick) (serve rs w)).
Proof.
  intros Hu Hk Hin Hc Hl Hnow Hd Hne.
  destruct (serve_invariants rs Hu Hk) as (_ & Hu' & Hk').
  pose proof (serve_keeps_session rs w s Hl Hin) as Hin'.
  set (e := mkEnv healthy now upstream monitor pick).
  assert (Ht : inTime s e = true) by (apply Z.ltb_lt; exact Hnow).
  pose proof (@expire_keeps_session (envClock e) (envMonitor e) (serve rs w) s
                (@inTime_not_expired s e Ht) Hin') as Hin''.
  pose proof (@expire_keeps_unique (envClock e) (envMonitor e) (serve rs w) Hu')
    as Hu''.
  pose proof (@expire_keeps_known (envClock e) (envMonitor e) (serve rs w) Hk')
    as Hk''.
  fold (arrive e (serve rs w)) in Hin'', Hu'', Hk''.
  generalize dependent (arrive e (serve rs w)). intros w' Hin'' Hu'' Hk''.
  cbn [handle envFaults envClock e].
  apply truthy_nonempty in Hc, Hd.
  destruct (@knownCode_find w' (sessionCode s) (Hk'' s Hin'')) as (a & Ha).
  unfold_handlers. cbn [reqCode reqDeviceId JS.str healthy].
  rewrite Hc, Hd. cbn [negb orb]. rewrite Ha.
  rewrite (@find_unique (sessionCode s) (sessions w') s Hu'' Hin'' (hasCode_own s)).
  cbn [deviceConflict].
  assert (E : JS.eqb (deviceId s) d = false) by (apply eqb_neq; congruence).
  rewrite E. reflexivity.
Qed.

(** X17.  The answers of [verifyCode] can be trusted, whatever the failures
    of the store.  [{valid: true}] is answered only when the code is known
    and the state it leaves holds a Session of the code whose deviceId is the
    request's as the store holds it, the request's deviceId itself when that
    is well-formed; [{valid: false}] only when no stored ciphertext is that
    of the code, and then nothing changed; status 403 only when the first
    Session of the code is bound to another deviceId, and then nothing
    changed. *)
Theorem verifyCode_answers_are_sound (f : Faults) (now : Z) (c d : jsstring)
    (w : World) :
  (fst (verifyCode f now (mkVerifyBody (Some c) (Some d)) w)
   = Returned (mkResponse 200 (JObj [(JS.lit "valid", JBool true)])) ->
   knownCode w c
   /\ exists x,
        In x (sessions (snd (verifyCode f now (mkVerifyBody (Some c) (Some d)) w)))
        /\ hasCode c x = true
        /\ JS.sameStored (deviceId x) d = true
        /\ (JS.wellFormed d = true -> deviceId x = d))
  /\ (fst (verifyCode f now (mkVerifyBody (Some c) (Some d)) w)
      = Returned (mkResponse 200 (JObj [(JS.lit "valid", JBool false)])) ->
      (forall a, In a (codes w) -> encryptedCode a <> encrypt c)
      /\ snd (verifyCode f now (mkVerifyBody (Some c) (Some d)) w) = w)
  /\ (fst (verifyCode f now (mkVerifyBody (Some c) (Some d)) w)
      = Returned (mkResponse 403
                    (errorBody "This code is already in use on another device.")) ->
      (exists s, find (hasCode c) (sessions w) = Some s /\ deviceId s <> d)
      /\ snd (verifyCode f now (mkVerifyBody (Some c) (Some d)) w) = w).
Proof.
  split; [|split]; intros H;
    destruct (verifyCode_cases f now (mkVerifyBody (Some c) (Some d)) w)
      as [[_ E]|[_ [[E _]|[[Hn E]|[[Hc E]|(Hk & Hc & Hs & [E|E])]]]]];
    try (rewrite E in H; discriminate H);
    cbn [reqCode reqDeviceId JS.str] in *.
  - split; [now apply find_code_known|]. rewrite Hs.
    destruct (upsert_no_conflict now c d (sessions w) Hc) as [[Hf ->]|[_ ->]].
    + destruct (find (hasCode c) (sessions w)) as [s|] eqn:Es; [|congruence].
      cbn [deviceConflict] in Hc. apply negb_false_iff, eqb_eq in Hc.
      apply find_hasCode_Some in Es. destruct Es as [Hin Hs'].
      exists s. split; [exact Hin|]. split; [exact Hs'|].
      split; [rewrite Hc; apply sameStored_refl | intros _; exact Hc].
    + exists (mkSession (JS.scrub c) (JS.scrub d) now).
      split; [apply in_or_app; right; now left|].
      split; [apply hasCode_inserted|]. cbn [deviceId].
      split; [apply sameStored_scrub | intros Hw; now apply wellFormed_scrub].
  - rewrite E. cbn [snd]. split; [|reflexivity].
    intros a Hin He. apply (find_none _ _ Hn) in Hin.
    rewrite He, eqb_refl in Hin. discriminate.
  - rewrite E. cbn [snd]. split; [|reflexivity].
    destruct (find (hasCode c) (sessions w)) as [s|]; [|discriminate].
    exists s. split; [reflexivity|]. cbn [deviceConflict] in Hc.
    apply negb_true_iff, eqb_neq in Hc. exact Hc.
Qed.

End Server.

(** ** The properties at the stand-in configuration

    The assumptions made of the cipher hold of [Sample], so the theorems
    above are not vacuous; and the inputs at which the code departs from the
    specification's wording. *)

Lemma sample_iv_length : length Sample.iv = blockSize.
Proof. reflexivity. Qed.

Lemma sample_aes_length (b : list byte) :
  length b = blockSize -> length (Sample.aes Sample.key b) = blockSize.
Proof.
  intros H. unfold Sample.aes. rewrite xorBlock_length, H. reflexivity.
Qed.

Lemma sample_aes_inj (a b : list byte) :
  length a = blockSize -> length b = blockSize ->
  Sample.aes Sample.key a = Sample.aes Sample.key b -> a = b.
Proof.
  intros Ha Hb. unfold Sample.aes. apply xorBlock_inj.
  - rewrite Ha. reflexivity.
  - rewrite Hb. reflexivity.
Qed.

Lemma sample_codes_distinct : NoDup (generatedCodes Sample.entropy).
Proof.
  vm_compute.
  repeat (constructor;
          [intros H; repeat (destruct H as [H|H]; [discriminate H|]); exact H|]).
  constructor.
Qed.

(** Two ASCII plaintexts, under the stand-in cipher. *)
Lemma encrypt_deterministic_injective_witness :
  JS.lit "X1" <> JS.lit "X2"
  /\ encrypt Sample.aes Sample.key Sample.iv (JS.lit "X1")
     <> encrypt Sample.aes Sample.key Sample.iv (JS.lit "X2").
Proof.
  assert (H : JS.lit "X1" <> JS.lit "X2") by discriminate.
  split; [exact H|].
  apply (proj2 (proj2 (@encrypt_deterministic_injective Sample.aes Sample.key
                         Sample.iv sample_iv_length sample_aes_length
                         sample_aes_inj (JS.lit "X1") (JS.lit "X2"))));
    [reflexivity | reflexivity | exact H].
Defined.

(** C4, as stated, fails: two distinct plaintexts, each a lone surrogate,
    are both read as U+FFFD and have the same ciphertext, whatever the cipher,
    the key and the IV. *)
Lemma encrypt_lone_surrogates_collide :
  ([0xD800%N] : jsstring) <> [0xD801%N]
  /\ (forall aes256 key iv,
        encrypt aes256 key iv [0xD800%N] = encrypt aes256 key iv [0xD801%N]).
Proof. split; [discriminate | reflexivity]. Qed.

(** C7, as stated, fails: the alphabet has 72 characters, 10 of them symbols,
    and the byte 73 selects index [73 mod 72 = 1], the letter B. *)
Lemma characters_not_74 :
  length characters = 72
  /\ length characters <> 74
  /\ skipn 62 characters = JS.lit "!@#$%^&*()"
  /\ length (skipn 62 characters) <> 12
  /\ fst (generateRandomCode (fun _ => x49) 0) = JS.lit "BBBBBBBBBBBB".
Proof. repeat split; discriminate. Qed.

(** Seeding an empty store from a source whose ten codes are distinct. *)
Lemma seedCodes_inserts_ten_witness :
  codes emptyWorld = []
  /\ length (codes (snd (seedCodes Sample.aes Sample.key Sample.iv
                            Sample.entropy 0 emptyWorld))) = 10.
Proof.
  split; [reflexivity|].
  destruct (proj1 (@seedCodes_inserts_ten Sample.aes Sample.key Sample.iv
                     sample_iv_length sample_aes_length sample_aes_inj
                     Sample.entropy 0%Z emptyWorld)
              eq_refl sample_codes_distinct) as (_ & _ & H & _).
  exact H.
Defined.

(** C8, as stated, fails: when the random source repeats itself the ten
    generated codes are equal, the second insert hits the unique index on
    [code], and the store is left with one record. *)
Lemma seedCodes_repeated_code :
  generatedCodes (fun _ => x00) = repeat (JS.lit "AAAAAAAAAAAA") 10
  /\ fst (seedCodes Sample.aes Sample.key Sample.iv (fun _ => x00) 0 emptyWorld)
     = Thrown (DuplicateKey (JS.lit "AAAAAAAAAAAA"))
  /\ length (codes (snd (seedCodes Sample.aes Sample.key Sample.iv
                           (fun _ => x00) 0 emptyWorld))) = 1.
Proof. repeat split. Qed.

(** The first login of device A with the seeded code ["X1"], at time 5. *)
Lemma verifyCode_accepts_and_binds_witness :
  fst (verifyCode Sample.aes Sample.key Sample.iv healthy 5
         (mkVerifyBody (Some sampleCode) (Some (JS.lit "A")))
         (seededWorld Sample.aes Sample.key Sample.iv))
  = Returned (mkResponse 200 (JObj [(JS.lit "valid", JBool true)]))
  /\ filter (hasCode sampleCode)
       (sessions (snd (verifyCode Sample.aes Sample.key Sample.iv healthy 5
                         (mkVerifyBody (Some sampleCode) (Some (JS.lit "A")))
                         (seededWorld Sample.aes Sample.key Sample.iv))))
     = [mkSession sampleCode (JS.lit "A") 5].
Proof.
  assert (Hk : knownCode Sample.aes Sample.key Sample.iv
                 (seededWorld Sample.aes Sample.key Sample.iv) sampleCode).
  { eexists. split; [left; reflexivity | reflexivity]. }
  assert (Hu : uniqueSessions (seededWorld Sample.aes Sample.key Sample.iv))
    by constructor.
  destruct (@verifyCode_accepts_and_binds Sample.aes Sample.key Sample.iv 5
              sampleCode (JS.lit "A") (seededWorld Sample.aes Sample.key Sample.iv)
              ltac:(discriminate) ltac:(discriminate) Hk Hu
              ltac:(intros s [])) as (H1 & H2 & _).
  split; [exact H1 | exact H2].
Defined.

(** C1, as stated, fails twice.  A re-login of device A at time 1000 is
    accepted, and the Session keeps the creation timestamp 0 it had.  And a
    first login from the device whose deviceId is a lone surrogate, U+D800,
    is accepted, and the Session it creates is bound to U+FFFD: the next
    request of the same device is refused. *)
Lemma verifyCode_keeps_timestamp_and_rewrites_deviceId :
  (sessions (boundWorld Sample.aes Sample.key Sample.iv (JS.lit "A"))
   = [mkSession sampleCode (JS.lit "A") 0]
   /\ fst (verifyCode Sample.aes Sample.key Sample.iv healthy 1000
             (mkVerifyBody (Some sampleCode) (Some (JS.lit "A")))
             (boundWorld Sample.aes Sample.key Sample.iv (JS.lit "A")))
      = Returned (mkResponse 200 (JObj [(JS.lit "valid", JBool true)]))
   /\ sessions (snd (verifyCode Sample.aes Sample.key Sample.iv healthy 1000
                       (mkVerifyBody (Some sampleCode) (Some (JS.lit "A")))
                       (boundWorld Sample.aes Sample.key Sample.iv (JS.lit "A"))))
      = [mkSession sampleCode (JS.lit "A") 0])
  /\ (verifyCode Sample.aes Sample.key Sample.iv healthy 0
        (mkVerifyBody (Some sampleCode) (Some [0xD800%N]))
        (seededWorld Sample.aes Sample.key Sample.iv)
      = (Returned (mkResponse 200 (JObj [(JS.lit "valid", JBool true)])),
         boundWorld Sample.aes Sample.key Sample.iv [0xFFFD%N])
      /\ fst (verifyCode Sample.aes Sample.key Sample.iv healthy 1
                (mkVerifyBody (Some sampleCode) (Some [0xD800%N]))
                (boundWorld Sample.aes Sample.key Sample.iv [0xFFFD%N]))
         = Returned (mkResponse 403
                       (errorBody "This code is already in use on another device."))).
Proof. repeat split. Qed.

(** Device B asks for the code that device A holds. *)
Lemma verifyCode_refuses_other_device_witness :
  verifyCode Sample.aes Sample.key Sample.iv healthy 5
    (mkVerifyBody (Some sampleCode) (Some (JS.lit "B")))
    (boundWorld Sample.aes Sample.key Sample.iv (JS.lit "A"))
  = (Returned (mkResponse 403
                 (errorBody "This code is already in use on another device.")),
     boundWorld Sample.aes Sample.key Sample.iv (JS.lit "A")).
Proof.
  assert (Hk : knownCode Sample.aes Sample.key Sample.iv
                 (boundWorld Sample.aes Sample.key Sample.iv (JS.lit "A")) sampleCode).
  { eexists. split; [left; reflexivity | reflexivity]. }
  assert (Hu : uniqueSessions (boundWorld Sample.aes Sample.key Sample.iv (JS.lit "A")))
    by (repeat constructor; intros []).
  apply (@verifyCode_refuses_other_device Sample.aes Sample.key Sample.iv 5
           sampleCode (JS.lit "B")
           (boundWorld Sample.aes Sample.key Sample.iv (JS.lit "A"))
           (mkSession sampleCode (JS.lit "A") 0)
           ltac:(discriminate) ltac:(discriminate) Hk Hu);
    [left; reflexivity | reflexivity | discriminate].
Defined.

(** C2, as stated, fails: the code is bound to device A and the request
    carries another deviceId, the empty one, or none; the answer is status
    400, not 403. *)
Lemma verifyCode_empty_device_is_400 :
  verifyCode Sample.aes Sample.key Sample.iv healthy 5
    (mkVerifyBody (Some sampleCode) (Some []))
    (boundWorld Sample.aes Sample.key Sample.iv (JS.lit "A"))
  = (Returned (mkResponse 400 (errorBody "Code and deviceId required")),
     boundWorld Sample.aes Sample.key Sample.iv (JS.lit "A"))
  /\ verifyCode Sample.aes Sample.key Sample.iv healthy 5
       (mkVerifyBody (Some sampleCode) None)
       (boundWorld Sample.aes Sample.key Sample.iv (JS.lit "A"))
     = (Returned (mkResponse 400 (errorBody "Code and deviceId required")),
        boundWorld Sample.aes Sample.key Sample.iv (JS.lit "A"))
  /\ deviceId (mkSession sampleCode (JS.lit "A") 0) <> [].
Proof. repeat split. discriminate. Qed.

(** A code that no access code matches, on the store of ["X1"]. *)
Lemma verifyCode_unknown_code_witness :
  verifyCode Sample.aes Sample.key Sample.iv healthy 5
    (mkVerifyBody (Some (JS.lit "nope")) (Some (JS.lit "A")))
    (seededWorld Sample.aes Sample.key Sample.iv)
  = (Returned (mkResponse 200 (JObj [(JS.lit "valid", JBool false)])),
     seededWorld Sample.aes Sample.key Sample.iv).
Proof.
  apply (@verifyCode_unknown_code Sample.aes Sample.key Sample.iv 5
           (JS.lit "nope") (JS.lit "A") (seededWorld Sample.aes Sample.key Sample.iv));
    [discriminate | discriminate |].
  intros a [<-|[]]. vm_compute. discriminate.
Defined.

(** C3, as stated, fails: the code is unknown and the deviceId is empty or
    missing; the answer is status 400, not [{valid: false}]. *)
Lemma verifyCode_unknown_code_empty_device :
  verifyCode Sample.aes Sample.key Sample.iv healthy 5
    (mkVerifyBody (Some (JS.lit "nope")) (Some [])) emptyWorld
  = (Returned (mkResponse 400 (errorBody "Code and deviceId required")), emptyWorld)
  /\ verifyCode Sample.aes Sample.key Sample.iv healthy 5
       (mkVerifyBody (Some (JS.lit "nope")) None) emptyWorld
     = (Returned (mkResponse 400 (errorBody "Code and deviceId required")), emptyWorld).
Proof. repeat split. Qed.

(** Logout of the code that device A holds. *)
Lemma logout_deletes_session_witness :
  fst (logout healthy (mkLogoutBody (Some sampleCode))
         (boundWorld Sample.aes Sample.key Sample.iv (JS.lit "A")))
  = Returned (mkResponse 200 (JObj [(JS.lit "success", JBool true)]))
  /\ filter (hasCode sampleCode)
       (sessions (snd (logout healthy (mkLogoutBody (Some sampleCode))
                         (boundWorld Sample.aes Sample.key Sample.iv (JS.lit "A")))))
     = [].
Proof.
  assert (Hu : uniqueSessions (boundWorld Sample.aes Sample.key Sample.iv (JS.lit "A")))
    by (repeat constructor; intros []).
  destruct (@logout_deletes_session sampleCode
              (boundWorld Sample.aes Sample.key Sample.iv (JS.lit "A"))
              ltac:(discriminate) Hu) as (H1 & H2 & _).
  split; [exact H1 | exact H2].
Defined.

(** The specification's example: A verifies, logs out, B verifies. *)
Lemma logout_then_verify_rebinds_witness :
  fst (verifyCode Sample.aes Sample.key Sample.iv healthy 9
         (mkVerifyBody (Some sampleCode) (Some (JS.lit "B")))
         (snd (logout healthy (mkLogoutBody (Some sampleCode))
                 (boundWorld Sample.aes Sample.key Sample.iv (JS.lit "A")))))
  = Returned (mkResponse 200 (JObj [(JS.lit "valid", JBool true)]))
  /\ filter (hasCode sampleCode)
       (sessions (snd (verifyCode Sample.aes Sample.key Sample.iv healthy 9
                         (mkVerifyBody (Some sampleCode) (Some (JS.lit "B")))
                         (snd (logout healthy (mkLogoutBody (Some sampleCode))
                                 (boundWorld Sample.aes Sample.key Sample.iv
                                    (JS.lit "A")))))))
     = [mkSession sampleCode (JS.lit "B") 9].
Proof.
  assert (Hk : knownCode Sample.aes Sample.key Sample.iv
                 (boundWorld Sample.aes Sample.key Sample.iv (JS.lit "A")) sampleCode).
  { eexists. split; [left; reflexivity | reflexivity]. }
  assert (Hu : uniqueSessions (boundWorld Sample.aes Sample.key Sample.iv (JS.lit "A")))
    by (repeat constructor; intros []).
  destruct (@logout_then_verify_rebinds Sample.aes Sample.key Sample.iv 9 0
              sampleCode (JS.lit "A") (JS.lit "B")
              (boundWorld Sample.aes Sample.key Sample.iv (JS.lit "A"))
              ltac:(discriminate) ltac:(discriminate) Hk Hu
              ltac:(left; reflexivity)) as (H1 & _ & H3).
  split; [exact H1 | apply H3; reflexivity].
Defined.

(** C6, as stated, fails: device B is the non-empty deviceId U+D800, a lone
    surrogate.  After the logout its verification is accepted, and the
    Session is bound to U+FFFD, not to B: the next request of B is refused. *)
Lemma logout_then_verify_lone_surrogate :
  verifyCode Sample.aes Sample.key Sample.iv healthy 0
    (mkVerifyBody (Some sampleCode) (Some [0xD800%N]))
    (snd (logout healthy (mkLogoutBody (Some sampleCode))
            (boundWorld Sample.aes Sample.key Sample.iv (JS.lit "A"))))
  = (Returned (mkResponse 200 (JObj [(JS.lit "valid", JBool true)])),
     boundWorld Sample.aes Sample.key Sample.iv [0xFFFD%N])
  /\ fst (verifyCode Sample.aes Sample.key Sample.iv healthy 1
            (mkVerifyBody (Some sampleCode) (Some [0xD800%N]))
            (boundWorld Sample.aes Sample.key Sample.iv [0xFFFD%N]))
     = Returned (mkResponse 403
                   (errorBody "This code is already in use on another device.")).
Proof. repeat split. Qed.

(** C10, as stated, fails.  A logout whose [code] is the object
    [{ $ne: 'X1' }] deletes the Session of the code X2 and leaves that of X1.
    And a logout whose code is the lone surrogate U+D800 deletes the Session
    whose code is U+FFFD, a code that differs from the request's. *)
Lemma logout_deletes_session_of_another_code :
  logoutNe healthy 0 (JS.lit "X1")
    (setSessions [mkSession (JS.lit "X2") (JS.lit "B") 0;
                  mkSession (JS.lit "X1") (JS.lit "A") 0] emptyWorld)
  = (Returned (mkResponse 200 (JObj [(JS.lit "success", JBool true)])),
     setSessions [mkSession (JS.lit "X1") (JS.lit "A") 0] emptyWorld)
  /\ logout healthy (mkLogoutBody (Some [0xD800%N]))
       (setSessions [mkSession [0xFFFD%N] (JS.lit "A") 0] emptyWorld)
     = (Returned (mkResponse 200 (JObj [(JS.lit "success", JBool true)])),
        emptyWorld).
Proof. repeat split. Qed.

(** ** Further properties at the stand-in configuration *)

Lemma sample_known :
  knownCode Sample.aes Sample.key Sample.iv
    (boundWorld Sample.aes Sample.key Sample.iv (JS.lit "A")) sampleCode.
Proof. eexists. split; [left; reflexivity | reflexivity]. Qed.

Lemma sample_unique :
  uniqueSessions (boundWorld Sample.aes Sample.key Sample.iv (JS.lit "A")).
Proof. repeat constructor. intros []. Qed.

Lemma sample_sessions_known :
  sessionsOfKnownCodes Sample.aes Sample.key Sample.iv
    (boundWorld Sample.aes Sample.key Sample.iv (JS.lit "A")).
Proof. intros s [<-|[]]. apply sample_known. Qed.

Lemma sample_seededStore :
  seededStore Sample.aes Sample.key Sample.iv
    (seededWorld Sample.aes Sample.key Sample.iv).
Proof.
  intros a [<-|[]]. split; [repeat constructor | split; [discriminate | reflexivity]].
Qed.

(** The lookup of access codes is down. *)
Lemma verifyCode_lookup_failure_witness :
  fst (verifyCode Sample.aes Sample.key Sample.iv Sample.lookupDown 5
         (mkVerifyBody (Some sampleCode) (Some (JS.lit "A")))
         (seededWorld Sample.aes Sample.key Sample.iv))
  = Returned (mkResponse 500 (errorBody "Server error")).
Proof.
  apply (@verifyCode_lookup_failure Sample.aes Sample.key Sample.iv
           Sample.lookupDown 5 sampleCode (JS.lit "A")
           (seededWorld Sample.aes Sample.key Sample.iv));
    [discriminate | discriminate | left; discriminate].
Defined.

(** Device A logs in again at time 1000. *)
Lemma verifyCode_relogin_is_noop_witness :
  verifyCode Sample.aes Sample.key Sample.iv healthy 1000
    (mkVerifyBody (Some sampleCode) (Some (JS.lit "A")))
    (boundWorld Sample.aes Sample.key Sample.iv (JS.lit "A"))
  = (Returned (mkResponse 200 (JObj [(JS.lit "valid", JBool true)])),
     boundWorld Sample.aes Sample.key Sample.iv (JS.lit "A")).
Proof.
  apply (@verifyCode_relogin_is_noop Sample.aes Sample.key Sample.iv 1000
           sampleCode (JS.lit "A")
           (boundWorld Sample.aes Sample.key Sample.iv (JS.lit "A"))
           (mkSession sampleCode (JS.lit "A") 0)
           ltac:(discriminate) ltac:(discriminate) sample_known);
    reflexivity.
Defined.

Lemma serve_keeps_invariants_witness :
  codes (serve Sample.aes Sample.key Sample.iv (JS.lit "k") sampleTraffic
           (boundWorld Sample.aes Sample.key Sample.iv (JS.lit "A")))
  = codes (boundWorld Sample.aes Sample.key Sample.iv (JS.lit "A"))
  /\ uniqueSessions
       (serve Sample.aes Sample.key Sample.iv (JS.lit "k") sampleTraffic
          (boundWorld Sample.aes Sample.key Sample.iv (JS.lit "A"))).
Proof.
  destruct (@serve_keeps_invariants Sample.aes Sample.key Sample.iv (JS.lit "k")
              sampleTraffic (boundWorld Sample.aes Sample.key Sample.iv (JS.lit "A"))
              sample_unique sample_sessions_known) as (H1 & H2 & _).
  split; [exact H1 | exact H2].
Defined.

Lemma binding_persists_without_logout_witness :
  In (mkSession sampleCode (JS.lit "A") 0)
     (sessions (serve Sample.aes Sample.key Sample.iv (JS.lit "k") sampleTraffic
                  (boundWorld Sample.aes Sample.key Sample.iv (JS.lit "A")))).
Proof.
  apply (@binding_persists_without_logout Sample.aes Sample.key Sample.iv
           (JS.lit "k") sampleTraffic
           (boundWorld Sample.aes Sample.key Sample.iv (JS.lit "A"))
           (mkSession sampleCode (JS.lit "A") 0));
    [reflexivity | left; reflexivity].
Defined.

Lemma logout_without_session_is_noop_witness :
  logout healthy (mkLogoutBody (Some (JS.lit "X2")))
    (boundWorld Sample.aes Sample.key Sample.iv (JS.lit "A"))
  = (Returned (mkResponse 200 (JObj [(JS.lit "success", JBool true)])),
     boundWorld Sample.aes Sample.key Sample.iv (JS.lit "A")).
Proof.
  apply (@logout_without_session_is_noop (JS.lit "X2")
           (boundWorld Sample.aes Sample.key Sample.iv (JS.lit "A")));
    [discriminate | reflexivity].
Defined.

(** Seeding from a source that repeats itself: one code is stored. *)
Lemma seedCodes_stops_at_first_repeat_witness :
  exists k,
    1 <= k <= 10
    /\ codes (snd (seedCodes Sample.aes Sample.key Sample.iv (fun _ => x00) 0
                     emptyWorld))
       = map (fun c => mkAccessCode c (encrypt Sample.aes Sample.key Sample.iv c) 0)
           (firstn k (generatedCodes (fun _ => x00)))
    /\ fst (seedCodes Sample.aes Sample.key Sample.iv (fun _ => x00) 0 emptyWorld)
       <> Returned tt.
Proof.
  destruct (@seedCodes_stops_at_first_repeat Sample.aes Sample.key Sample.iv
              sample_iv_length sample_aes_length (fun _ => x00) 0%Z emptyWorld
              eq_refl) as (k & Hk & Hc & _).
  exists k. split; [exact Hk|]. split; [exact Hc | vm_compute; discriminate].
Defined.

Lemma seedCodes_runs_once_witness :
  codes (snd (seedCodes Sample.aes Sample.key Sample.iv Sample.entropy 1
                (snd (seedCodes Sample.aes Sample.key Sample.iv (fun _ => x00) 0
                        emptyWorld))))
  = codes (snd (seedCodes Sample.aes Sample.key Sample.iv (fun _ => x00) 0
                  emptyWorld)).
Proof.
  exact (proj2 (@seedCodes_runs_once Sample.aes Sample.key Sample.iv
                  sample_iv_length sample_aes_length (fun _ => x00) Sample.entropy
                  0%Z 1%Z emptyWorld)).
Defined.

Lemma seeded_code_is_accepted_witness :
  fst (verifyCode Sample.aes Sample.key Sample.iv healthy 5
         (mkVerifyBody (Some (JS.lit "AAAAAAAAAAAA")) (Some (JS.lit "A")))
         (snd (seedCodes Sample.aes Sample.key Sample.iv Sample.entropy 0
                 emptyWorld)))
  = Returned (mkResponse 200 (JObj [(JS.lit "valid", JBool true)])).
Proof.
  apply (@seeded_code_is_accepted Sample.aes Sample.key Sample.iv
           sample_iv_length sample_aes_length Sample.entropy 0%Z 5%Z emptyWorld
           (mkAccessCode (JS.lit "AAAAAAAAAAAA")
              (encrypt Sample.aes Sample.key Sample.iv (JS.lit "AAAAAAAAAAAA")) 0)
           (JS.lit "A"));
    [reflexivity | vm_compute; left; reflexivity | discriminate | intros s []].
Defined.

Lemma verifyCode_accepts_only_stored_codes_witness :
  exists a, In a (codes (seededWorld Sample.aes Sample.key Sample.iv))
            /\ code a = sampleCode.
Proof.
  apply (@verifyCode_accepts_only_stored_codes Sample.aes Sample.key Sample.iv
           sample_iv_length sample_aes_length sample_aes_inj healthy 5 sampleCode
           (Some (JS.lit "A")) (seededWorld Sample.aes Sample.key Sample.iv)
           sample_seededStore);
    [repeat constructor | reflexivity].
Defined.

Lemma encrypt_output_shape_witness :
  length (encrypt Sample.aes Sample.key Sample.iv sampleCode) = 32.
Proof.
  exact (proj1 (@encrypt_output_shape Sample.aes Sample.key Sample.iv
                  sample_iv_length sample_aes_length sampleCode)).
Defined.

(** Two plaintexts of 17 and 18 bytes with the same first 16. *)
Lemma encrypt_keeps_common_prefix_witness :
  JS.lit "0123456789abcdefX" <> JS.lit "0123456789abcdefYZ"
  /\ firstn 32 (encrypt Sample.aes Sample.key Sample.iv (JS.lit "0123456789abcdefX"))
     = firstn 32 (encrypt Sample.aes Sample.key Sample.iv (JS.lit "0123456789abcdefYZ")).
Proof.
  split; [discriminate|].
  assert (Hx : 16 * 1 <= length (Bytes.utf8 (JS.lit "0123456789abcdefX")))
    by (vm_compute; lia).
  assert (Hy : 16 * 1 <= length (Bytes.utf8 (JS.lit "0123456789abcdefYZ")))
    by (vm_compute; lia).
  assert (Hp : firstn (16 * 1) (Bytes.utf8 (JS.lit "0123456789abcdefX"))
               = firstn (16 * 1) (Bytes.utf8 (JS.lit "0123456789abcdefYZ")))
    by (vm_compute; reflexivity).
  exact (@encrypt_keeps_common_prefix Sample.aes Sample.key Sample.iv
           sample_iv_length sample_aes_length 1
           (JS.lit "0123456789abcdefX") (JS.lit "0123456789abcdefYZ") Hx Hy Hp).
Defined.

(** After the sample traffic, device B is still refused. *)
Lemma other_device_stays_refused_witness :
  fst (handle Sample.aes Sample.key Sample.iv (JS.lit "k")
         (mkEnv healthy 11 (fun _ => Resolved JNull) (fun _ => true) 0)
         (PostVerifyCode (mkVerifyBody (Some sampleCode) (Some (JS.lit "B"))))
         (arrive (mkEnv healthy 11 (fun _ => Resolved JNull) (fun _ => true) 0)
            (serve Sample.aes Sample.key Sample.iv (JS.lit "k") sampleTraffic
               (boundWorld Sample.aes Sample.key Sample.iv (JS.lit "A")))))
  = Returned (mkResponse 403
                (errorBody "This code is already in use on another device.")).
Proof.
  exact (f_equal fst
           (@other_device_stays_refused Sample.aes Sample.key Sample.iv
              (JS.lit "k") sampleTraffic 11 (fun _ => Resolved JNull) (fun _ => true) 0
              (boundWorld Sample.aes Sample.key Sample.iv (JS.lit "A"))
              (mkSession sampleCode (JS.lit "A") 0) (JS.lit "B")
              sample_unique sample_sessions_known
              ltac:(left; reflexivity) ltac:(discriminate) eq_refl
              ltac:(reflexivity) ltac:(discriminate) ltac:(discriminate))).
Defined.
